(** * The GSS dashboard ([app.py]): dataset preparation and the two callbacks

    The development follows the module from top to bottom:
    - Python values and exceptions, and [float(str)], which
      [Series.astype('float')] applies to every string of an object column;
    - a small model of the pandas frame (named, typed columns over an
      ordered list of records) with the operations the module calls:
      [df[[...]]], [rename], [replace], [astype], [value_counts],
      [reset_index];
    - the module body down to line 39 (the prepared [gss_clean]);
    - the two Dash callbacks [title] and [user_bar], written in a monad
      that threads the module globals and raises Python exceptions;
    - the properties of the callbacks and of the preparation. *)

From Stdlib Require Import ZArith QArith Qcanon Ascii String List Lia.
From stdpp Require Import base option list gmap strings sorting pretty.

Open Scope string_scope.
Open Scope list_scope.
Open Scope nat_scope.

(** ** Exceptions and results *)

(** The exception classes the modelled code can raise.  [KeyError]
    carries the keys that were not found (one key for a [dict], the
    missing labels for a frame); [AttributeError] the attribute name;
    [ValueError] the offending text. *)
Inductive exn : Type :=
| KeyError (missing : list string)
| AttributeError (name : string)
| ValueError (what : string).

Inductive result (A : Type) : Type :=
| Ok (a : A)
| Raise (e : exn).
Arguments Ok {A} a.
Arguments Raise {A} e.

#[global] Instance result_ret : MRet result := @Ok.
#[global] Instance result_bind : MBind result := fun A B f m =>
  match m with
  | Ok a => f a
  | Raise e => Raise e
  end.
#[global] Instance result_fmap : FMap result := fun A B f m =>
  match m with
  | Ok a => Ok (f a)
  | Raise e => Raise e
  end.

Definition is_Ok {A} (r : result A) : bool :=
  match r with Ok _ => true | Raise _ => false end.

(** [[f(x) for x in l]] where [f] may raise: the first exception wins. *)
Fixpoint result_mapM {A B} (f : A → result B) (l : list A) : result (list B) :=
  match l with
  | [] => Ok []
  | x :: l' => y ← f x; ys ← result_mapM f l'; mret (y :: ys)
  end.

(** ** Python dictionaries with string keys *)

Module PyDict.

(** [d[k]]: the value, or [KeyError(k)]. *)
Definition getitem {V} (d : gmap string V) (k : string) : result V :=
  match d !! k with
  | Some v => Ok v
  | None => Raise (KeyError [k])
  end.

(** [d.get(k, default)]. *)
Definition get {V} (d : gmap string V) (k : string) (default : V) : V :=
  match d !! k with
  | Some v => v
  | None => default
  end.

End PyDict.

(** ** Cells of a frame *)

(** A cell of a pandas column: the missing marker ([NaN], which is also
    what the [na_values] of [read_csv] become), a string, a finite number
    or an infinity.  A finite float is given by the rational number it is
    equal to.  A string is a sequence of characters with code points
    below 256, one [ascii] per character, whose code is the code point;
    text with other characters is not represented. *)
Inductive cell : Type :=
| NaN
| Str (s : string)
| Num (x : Qc)
| Inf (negative : bool).

#[global] Instance cell_eq_dec : EqDecision cell.
Proof. solve_decision. Defined.

(** [pd.notna] *)
Definition notna (c : cell) : bool :=
  match c with NaN => false | _ => true end.

(** ** [float(str)] *)

(** [astype('float')] on an object column calls [float] on every string.
    The steps are those of CPython ([PyFloat_FromString]): a text that is
    not all ASCII has its white space from 127 up turned into spaces and
    is cut at any other character from 127 up; single underscores between
    digits are dropped; white space at both ends is stripped; what is
    left is an optional sign and either [inf], [infinity] or [nan] in any
    case, or a decimal literal with an optional exponent, whose value is
    rounded to the nearest binary64 number. *)
Module PyFloat.

Definition code (c : ascii) : nat := nat_of_ascii c.

(** [Py_ISSPACE]: TAB..CR and the space. *)
Definition is_space (c : ascii) : bool :=
  let n := code c in
  ((9 <=? n) && (n <=? 13)) || (n =? 32).

Definition is_digit (c : ascii) : bool :=
  let n := code c in (48 <=? n) && (n <=? 57).

Definition is_underscore (c : ascii) : bool := code c =? 95.

Definition is_ascii (l : list ascii) : bool :=
  forallb (λ c, code c <? 128) l.

(** [Py_UNICODE_ISSPACE] from 127 up: below 256 these are the next-line
    character (133) and the non-breaking space (160). *)
Definition is_unicode_space (c : ascii) : bool :=
  (code c =? 133) || (code c =? 160).

(** The loop of [_PyUnicode_TransformDecimalAndSpaceToASCII]: characters
    below 127 are copied; of the others, white space becomes a space and
    a decimal digit its ASCII digit, and the first character that is
    neither is replaced by a question mark, at which the text ends.
    There is no decimal digit between 127 and 255. *)
Fixpoint transform (l : list ascii) : list ascii :=
  match l with
  | [] => []
  | c :: l' =>
      if code c <? 127 then c :: transform l'
      else if is_unicode_space c then ascii_of_nat 32 :: transform l'
      else [ascii_of_nat 63]
  end.

(** An ASCII text is taken as it is. *)
Definition to_ascii (l : list ascii) : list ascii :=
  if is_ascii l then l else transform l.

Fixpoint lstrip (l : list ascii) : list ascii :=
  match l with
  | c :: l' => if is_space c then lstrip l' else l
  | [] => []
  end.

Definition strip (l : list ascii) : list ascii :=
  rev (lstrip (rev (lstrip l))).

(** [_Py_string_to_number_with_underscores]: an underscore is accepted
    only between two digits, and is then dropped. [prev] is the previous
    character of the input. *)
Fixpoint drop_underscores (prev : option ascii) (l : list ascii)
  : option (list ascii) :=
  match l with
  | [] =>
      match prev with
      | Some p => if is_underscore p then None else Some []
      | None => Some []
      end
  | c :: l' =>
      if is_underscore c then
        match prev with
        | Some p => if is_digit p then drop_underscores (Some c) l' else None
        | None => None
        end
      else
        let after_underscore :=
          match prev with Some p => is_underscore p | None => false end in
        if after_underscore && negb (is_digit c) then None
        else cons c <$> drop_underscores (Some c) l'
  end.

Fixpoint span_digits (l : list ascii) : list ascii * list ascii :=
  match l with
  | c :: l' =>
      if is_digit c then
        let '(ds, r) := span_digits l' in (c :: ds, r)
      else ([], l)
  | [] => ([], [])
  end.

Definition digits_to_Z (ds : list ascii) : Z :=
  fold_left (fun acc c => (10 * acc + (Z.of_nat (code c) - 48))%Z) ds 0%Z.

(** An optional sign; [true] for a minus. *)
Definition take_sign (l : list ascii) : bool * list ascii :=
  match l with
  | c :: l' =>
      if code c =? 45 then (true, l')
      else if code c =? 43 then (false, l')
      else (false, l)
  | [] => (false, [])
  end.

Definition lower (c : ascii) : ascii :=
  let n := code c in
  if (65 <=? n) && (n <=? 90) then ascii_of_nat (n + 32) else c.

(** The exponent part: nothing, or [e], an optional sign and at least
    one digit, up to the end of the text. *)
Definition parse_exponent (l : list ascii) : option Z :=
  match l with
  | [] => Some 0%Z
  | c :: r =>
      if code (lower c) =? 101 then
        let '(neg, r1) := take_sign r in
        let '(ds, r2) := span_digits r1 in
        match ds, r2 with
        | _ :: _, [] => Some (if neg then (- digits_to_Z ds)%Z else digits_to_Z ds)
        | _, _ => None
        end
      else None
  end.

(** [m * 10^e], the number a literal denotes. *)
Definition decimal (m e : Z) : Q := inject_Z m * (10 # 1) ^ e.

(** The unsigned finite literal: digits, an optional point and digits,
    at least one digit in all, then the exponent part. *)
Definition parse_finite (l : list ascii) : option Q :=
  let '(ip, r1) := span_digits l in
  let '(fp, r2) :=
    match r1 with
    | c :: r => if code c =? 46 then span_digits r else ([], r1)
    | [] => ([], [])
    end in
  match ip ++ fp with
  | [] => None
  | ds =>
      e ← parse_exponent r2;
      Some (decimal (digits_to_Z ds) (e - Z.of_nat (length fp)))
  end.

Definition is_word (w : string) (l : list ascii) : bool :=
  bool_decide (map lower l = list_ascii_of_string w).

(** The integer nearest to [a / b], the even one of two that are equally
    near ([0 <= a], [0 < b]). *)
Definition round_half_even (a b : Z) : Z :=
  let q := (a / b)%Z in
  match (2 * (a mod b) ?= b)%Z with
  | Lt => q
  | Gt => (q + 1)%Z
  | Eq => if Z.even q then q else (q + 1)%Z
  end.

(** The exponent [e] with [2^52 <= (a / b) / 2^e < 2^53] ([0 < a],
    [0 < b]). *)
Definition binade (a b : Z) : Z :=
  let e0 := (Z.log2 a - Z.log2 b - 52)%Z in
  if (2 ^ 52 * (b * 2 ^ Z.max e0 0) <=? a * 2 ^ Z.max (- e0) 0)%Z
  then e0 else (e0 - 1)%Z.

(** Rounding of the non-negative rational [q], with the sign given
    apart, to binary64: 53 significant bits, no exponent below -1074
    (below the normal range the spacing stays [2^-1074], and what is
    nearer to zero than to [2^-1074] becomes zero), an infinity from
    [2^1024] on.  The result is given in lowest terms.  The two zeros
    are one number here, as they are equal in Python and form one group
    in pandas. *)
Definition round64 (negative : bool) (q : Q) : cell :=
  let a := Qnum q in
  let b := Z.pos (Qden q) in
  if (a <=? 0)%Z then Num 0
  else
    let e := Z.max (binade a b) (-1074) in
    let m := round_half_even (a * 2 ^ Z.max (- e) 0) (b * 2 ^ Z.max e 0) in
    let num := (m * 2 ^ Z.max e 0)%Z in
    let den := (2 ^ Z.max (- e) 0)%Z in
    if (2 ^ 1024 * den <=? num)%Z then Inf negative
    else Num (Q2Qc (Qred ((if negative then - num else num)%Z # Z.to_pos den))).

(** [float(s)] for a string [s]: [None] stands for the [ValueError]
    (could not convert string to float). *)
Definition of_string (s : string) : option cell :=
  body ← drop_underscores None (to_ascii (list_ascii_of_string s));
  let '(neg, r) := take_sign (strip body) in
  if is_word "inf" r || is_word "infinity" r then Some (Inf neg)
  else if is_word "nan" r then Some NaN
  else x ← parse_finite r; Some (round64 neg x).

End PyFloat.

(** ** Frames *)

(** The element type of a column, as far as the module depends on it:
    [object] columns hold strings (and what [read_csv] could not read as a
    number), the two numeric types hold numbers and [NaN]. *)
Inductive dtype : Type := object | int64 | float64.

#[global] Instance dtype_eq_dec : EqDecision dtype.
Proof. solve_decision. Defined.

Definition is_numeric (t : dtype) : bool :=
  match t with object => false | int64 | float64 => true end.

(** A frame: the labelled, typed columns and the ordered records; the
    [i]-th cell of a record belongs to the [i]-th column.  The row index is
    the default range index throughout the module and is left out. *)
Record DataFrame : Type := {
  columns : list (string * dtype);
  records : list (list cell)
}.

(** A column on its own ([df.age], or the counts of [value_counts]). *)
Record Series : Type := {
  s_dtype : dtype;
  values : list cell
}.

Module Frame.

Definition names (df : DataFrame) : list string := fst <$> columns df.

(** Position of the first column called [name]. *)
Fixpoint position (name : string) (l : list string) : option nat :=
  match l with
  | [] => None
  | n :: l' => if decide (n = name) then Some 0 else S <$> position name l'
  end.

(** The cell of record [r] in column [i]. *)
Definition at_ (i : nat) (r : list cell) : cell := nth i r NaN.

(** The value a record of [df] holds for the column called [name];
    [NaN] when the frame has no such column. *)
Definition field (df : DataFrame) (name : string) (r : list cell) : cell :=
  match position name (names df) with
  | Some i => at_ i r
  | None => NaN
  end.

(** [df[[n1, ..., nk]]]: the listed columns in the listed order, or
    [KeyError] with the labels that are not columns of [df]. *)
Definition getitem_list (df : DataFrame) (ns : list string) : result DataFrame :=
  match filter (λ n, position n (names df) = None) ns with
  | [] =>
      let idx := omap (λ n, position n (names df)) ns in
      Ok {| columns := omap (λ i, columns df !! i) idx;
            records := (λ r, (λ i, at_ i r) <$> idx) <$> records df |}
  | missing => Raise (KeyError missing)
  end.

(** [df.rename(mapping, axis=1)]: labels that are keys of [mapping] are
    replaced, the others kept; keys that are not labels are ignored. *)
Definition rename (df : DataFrame) (mapping : gmap string string) : DataFrame :=
  {| columns := (λ c, (PyDict.get mapping c.1 c.1, c.2)) <$> columns df;
     records := records df |}.

(** [df.name] for a column label. *)
Definition getattr (df : DataFrame) (name : string) : result Series :=
  match position name (names df) with
  | Some i =>
      Ok {| s_dtype := default object (snd <$> columns df !! i);
            values := at_ i <$> records df |}
  | None => Raise (AttributeError name)
  end.

(** [df.name = s] for an existing column label: the column is replaced
    cell by cell and takes the type of [s]. *)
Definition setattr (df : DataFrame) (name : string) (s : Series) : DataFrame :=
  match position name (names df) with
  | Some i =>
      {| columns := <[i := (name, s_dtype s)]> (columns df);
         records := zip_with (λ r v, <[i := v]> r) (records df) (values s) |}
  | None => df
  end.

(** One cell of [replace]: a string that is a key is replaced. *)
Definition replace_cell (mapping : gmap string string) (c : cell) : cell :=
  match c with
  | Str t => Str (PyDict.get mapping t t)
  | _ => c
  end.

(** [s.replace(mapping)] with strings for keys and values. *)
Definition replace (s : Series) (mapping : gmap string string) : Series :=
  {| s_dtype := s_dtype s;
     values := replace_cell mapping <$> values s |}.

(** One cell of [astype('float')]: numbers and the missing marker are
    kept, a string goes through [float]. *)
Definition to_float (c : cell) : result cell :=
  match c with
  | Str t =>
      match PyFloat.of_string t with
      | Some v => Ok v
      | None => Raise (ValueError t)
      end
  | _ => Ok c
  end.

(** [s.astype('float')] *)
Definition astype_float (s : Series) : result Series :=
  vs ← result_mapM to_float (values s);
  mret {| s_dtype := float64; values := vs |}.

End Frame.

(** ** [DataFrame.value_counts] and [reset_index] *)

Module Counts.

(** Order of the group keys of one column, as [groupby(sort=True)]
    leaves them: numbers by value (the infinities at the two ends), then
    strings by code point. *)
Definition cell_leb (a b : cell) : bool :=
  match a, b with
  | Inf true, (Inf _ | Num _ | Str _ | NaN) => true
  | Num _, Inf true => false
  | Num x, Num y => Qle_bool x y
  | Num _, (Inf false | Str _ | NaN) => true
  | Inf false, (Inf true | Num _) => false
  | Inf false, (Inf false | Str _ | NaN) => true
  | Str _, (Inf _ | Num _) => false
  | Str s, Str t => String.leb s t
  | Str _, NaN => true
  | NaN, NaN => true
  | NaN, _ => false
  end.

(** Keys of several columns compare column by column. *)
Fixpoint key_leb (a b : list cell) : bool :=
  match a, b with
  | [], _ => true
  | _ :: _, [] => false
  | x :: a', y :: b' => if decide (x = y) then key_leb a' b' else cell_leb x y
  end.

(** The result of [value_counts]: a series of sizes indexed by the
    distinct records ([levels] are the index names, one per column). *)
Record t : Type := {
  levels : list (string * dtype);
  sizes : list (list cell * nat)
}.

(** Number of records of [l] equal to [k]. *)
Definition occurrences (k : list cell) (l : list (list cell)) : nat :=
  length (filter (λ r, r = k) l).

(** The order [sort_values(ascending=False)] puts the sizes in. *)
Definition larger_first (a b : list cell * nat) : Prop := b.2 ≤ a.2.

#[global] Instance larger_first_dec : RelDecision larger_first :=
  λ a b, decide (b.2 ≤ a.2).

(** [g] put into a list that is sorted from the largest size to the
    smallest: after the larger sizes, and before the sizes equal to its
    own. *)
Fixpoint insert_size (g : list cell * nat) (l : list (list cell * nat)) :
    list (list cell * nat) :=
  match l with
  | [] => [g]
  | h :: l' => if decide (h.2 ≤ g.2) then g :: h :: l' else h :: insert_size g l'
  end.

(** [sort_values(ascending=False)] on the sizes: from the largest to the
    smallest, equal sizes staying in the order they had.  This is what
    pandas returns when numpy sorts by insertion, as it does for a short
    array; for longer ones neither library fixes an order among equal
    sizes. *)
Definition sort_values (l : list (list cell * nat)) : list (list cell * nat) :=
  foldr insert_size [] l.

(** [df.value_counts()] with its defaults ([sort=True],
    [ascending=False], [dropna=True]): records with a missing cell are
    dropped, the others grouped by equality with the keys in sorted
    order, and the sizes then sorted from the largest to the smallest.
    Grouping needs distinct column labels. *)
Definition value_counts (df : DataFrame) : result t :=
  if decide (NoDup (Frame.names df)) then
    let complete := filter (λ r, forallb notna r) (records df) in
    let keys := merge_sort (λ a b, key_leb a b) (remove_dups complete) in
    let size := (λ k, (k, occurrences k complete)) <$> keys in
    Ok {| levels := columns df;
          sizes := sort_values size |}
  else Raise (ValueError "Grouper not 1-dimensional").

Definition of_nat (n : nat) : cell := Num (Q2Qc (inject_Z (Z.of_nat n))).

(** [counts.reset_index()]: the index levels become columns again and the
    sizes a last column called [count]. *)
Definition reset_index (c : t) : DataFrame :=
  {| columns := levels c ++ [("count", int64)];
     records := (λ g, g.1 ++ [of_nat g.2]) <$> sizes c |}.

(** The integer a cell of an [int64] column holds. *)
Definition to_Z (c : cell) : Z :=
  match c with
  | Num x => (Qnum x / Z.pos (Qden x))%Z
  | _ => 0%Z
  end.

End Counts.

(** ** The module body: [gss_clean] *)

Definition mycols : list string :=
  ["id"; "wtss"; "sex"; "educ"; "region"; "age"; "coninc";
   "prestg10"; "mapres10"; "papres10"; "sei10"; "satjob";
   "fechld"; "fefam"; "fepol"; "fepresch"; "meovrwrk"].

Definition renamed_columns : gmap string string :=
  <["wtss" := "weight"]> $
  <["educ" := "education"]> $
  <["coninc" := "income"]> $
  <["prestg10" := "job_prestige"]> $
  <["mapres10" := "mother_job_prestige"]> $
  <["papres10" := "father_job_prestige"]> $
  <["sei10" := "socioeconomic_index"]> $
  <["fechld" := "relationship"]> $
  <["fefam" := "male_breadwinner"]> $
  <["fehire" := "hire_women"]> $
  <["fejobaff" := "preference_hire_women"]> $
  <["fepol" := "men_bettersuited"]> $
  <["fepresch" := "child_suffer"]> $
  <["meovrwrk" := "men_overwork"]> ∅.

Definition age_replacements : gmap string string :=
  <["89 or older" := "89"]> ∅.

(** Lines 38 and 39: the two assignments to [gss_clean.age]. *)
Definition clean_age (gss_clean : DataFrame) : result DataFrame :=
  age ← Frame.getattr gss_clean "age";
  let gss_clean := Frame.setattr gss_clean "age" (Frame.replace age age_replacements) in
  age ← Frame.getattr gss_clean "age";
  age ← Frame.astype_float age;
  mret (Frame.setattr gss_clean "age" age).

(** Lines 20 to 39, from the frame [gss] that [read_csv] returned.  The
    rest of the module body reads [gss_clean] to build the static figures
    and the layout, and does not assign to it again. *)
Definition prepare (gss : DataFrame) : result DataFrame :=
  gss_clean ← Frame.getitem_list gss mycols;
  let gss_clean := Frame.rename gss_clean renamed_columns in
  clean_age gss_clean.

(** ** Globals and callbacks *)

(** The module-level state the callbacks can see. *)
Record Globals : Type := { gss_clean : DataFrame }.

(** A callback is run against the globals; it returns a value or raises,
    and leaves the globals as it made them. *)
Definition App (A : Type) : Type := Globals → result A * Globals.

#[global] Instance App_ret : MRet App := λ A a g, (Ok a, g).
#[global] Instance App_bind : MBind App := λ A B f m g,
  match m g with
  | (Ok a, g') => f a g'
  | (Raise e, g') => (Raise e, g')
  end.

Definition lift {A} (r : result A) : App A := λ g, (r, g).

(** Reading the global [gss_clean]. *)
Definition read_gss_clean : App DataFrame := λ g, (Ok (gss_clean g), g).

(** ** [plotly.express.bar] as far as the callback uses it *)

Module Px.

(** One bar trace.  With a discrete colour column there is a trace per
    colour value, named after it; with a numeric colour column there is
    a single unnamed trace whose bars carry their colour values. *)
Record Trace : Type := {
  name : option cell;
  x : list cell;
  y : list cell;
  marker_color : option (list cell)
}.

Record Legend : Type := {
  legend_title : option string;
  yanchor : option string;
  legend_y : option Qc;
  xanchor : option string;
  legend_x : option Qc
}.

Record Figure : Type := {
  data : list Trace;
  barmode : string;
  height : Z;
  width : Z;
  xaxis_title : string;
  yaxis_title : string;
  coloraxis_title : option string;
  legend : Legend
}.

(** Distinct values in order of first appearance ([Series.unique]). *)
Fixpoint unique (l : list cell) : list cell :=
  match l with
  | [] => []
  | c :: l' => c :: filter (λ d, d ≠ c) (unique l')
  end.

(** A name given for [x], [y] or [color] has to be a column. *)
Definition check_column (df : DataFrame) (n : string) : result () :=
  match Frame.position n (Frame.names df) with
  | Some _ => Ok ()
  | None => Raise (ValueError n)
  end.

Definition column_dtype (df : DataFrame) (n : string) : dtype :=
  default object (i ← Frame.position n (Frame.names df); snd <$> columns df !! i).

Definition trace_of (df : DataFrame) (x y : string) (v : cell)
    (group : list (list cell)) : Trace :=
  {| name := Some v;
     x := Frame.field df x <$> group;
     y := Frame.field df y <$> group;
     marker_color := None |}.

(** The traces.  A numeric colour column does not group: all records go
    to one trace.  Otherwise the records are grouped by colour value,
    groups in order of first appearance and records in frame order
    inside a group; a column with one distinct value is one group of all
    records, and with several, records without a colour value belong to
    no group. *)
Definition traces (df : DataFrame) (x y color : string) : list Trace :=
  if is_numeric (column_dtype df color) then
    [ {| name := None;
         x := Frame.field df x <$> records df;
         y := Frame.field df y <$> records df;
         marker_color := Some (Frame.field df color <$> records df) |} ]
  else
    match unique (Frame.field df color <$> records df) with
    | [v] => [trace_of df x y v (records df)]
    | uniques =>
        (λ v, trace_of df x y v
                (filter (λ r, Frame.field df color r = v) (records df)))
        <$> filter (λ c, notna c) uniques
    end.

(** [px.bar(df, x=, y=, color=, height=, width=, labels=, barmode=)].
    The legend takes its title from the traces that are named after a
    colour value: it has none when the colour column is numeric, and none
    when no trace is drawn. *)
Definition bar (df : DataFrame) (x y color : string) (height width : Z)
    (labels : gmap string string) (barmode : string) : result Figure :=
  _ ← check_column df x;
  _ ← check_column df y;
  _ ← check_column df color;
  let continuous := is_numeric (column_dtype df color) in
  let color_label := PyDict.get labels color color in
  let data := traces df x y color in
  mret {| data := data;
          barmode := barmode;
          height := height;
          width := width;
          xaxis_title := PyDict.get labels x x;
          yaxis_title := PyDict.get labels y y;
          coloraxis_title := if continuous then Some color_label else None;
          legend := {| legend_title :=
                         match data with
                         | [] => None
                         | _ :: _ => if continuous then None else Some color_label
                         end;
                       yanchor := None; legend_y := None;
                       xanchor := None; legend_x := None |} |}.

(** [fig.update_layout(legend = {yanchor, y, xanchor, x},
    xaxis = {title})]: the given keys are set, the others kept. *)
Definition update_layout (fig : Figure) (ya : string) (ly : Qc)
    (xa : string) (lx : Qc) (xtitle : string) : Figure :=
  {| data := data fig;
     barmode := barmode fig;
     height := height fig;
     width := width fig;
     xaxis_title := xtitle;
     yaxis_title := yaxis_title fig;
     coloraxis_title := coloraxis_title fig;
     legend := {| legend_title := legend_title (legend fig);
                  yanchor := Some ya; legend_y := Some ly;
                  xanchor := Some xa; legend_x := Some lx |} |}.

(** Number of bars drawn. *)
Definition bar_count (fig : Figure) : nat :=
  sum_list ((λ t, length (y t)) <$> data fig).

End Px.

(** ** The layout: what the two dropdowns offer *)

(** [(label, value)] of the options of the [category] dropdown. *)
Definition category_options : list (string * string) :=
  [("Sex", "sex"); ("Years of education", "education"); ("Region", "region")].

(** [(label, value)] of the options of the [question] dropdown. *)
Definition question_options : list (string * string) :=
  [("On the whole, how satisfied are you with the work you do?", "satjob");
   ("It is much better for everyone involved if the man...", "male_breadwinner");
   ("A working mother can establish just as warm and secure...", "relationship");
   ("Most men are better suited emotionally for politics...", "men_bettersuited");
   ("A preschool child is likely to suffer if his or her mother works.", "child_suffer");
   ("Family life often suffers because men concentrate too much...", "men_overwork")].

Definition valid_category (category : string) : Prop :=
  category ∈ category_options.*2.

Definition valid_question (question : string) : Prop :=
  question ∈ question_options.*2.

#[global] Instance valid_category_dec category : Decision (valid_category category) :=
  decide (category ∈ category_options.*2).

#[global] Instance valid_question_dec question : Decision (valid_question question) :=
  decide (question ∈ question_options.*2).

(** ** The callbacks *)

Definition dquote : string := String (ascii_of_nat 34) EmptyString.

(** The dictionary [q] of [title]. *)
Definition title_q : gmap string string :=
  <["satjob" := "On the whole, how satisfied are you with the work you do?"]> $
  <["relationship" := "A working mother can establish just as warm and secure a relationship with her children as a mother who does not work."]> $
  <["male_breadwinner" := "It is much better for everyone involved if the man is the achiever outside the home and the woman takes care of the home and family."]> $
  <["men_bettersuited" := "Most men are better suited emotionally for politics than are most women."]> $
  <["child_suffer" := "A preschool child is likely to suffer if his or her mother works."]> $
  <["men_overwork" := "Family life often suffers because men concentrate too much on their work"]> ∅.

(** The dictionary [c] of [title]. *)
Definition title_c : gmap string string :=
  <["sex" := "sex"]> $
  <["education" := "years of education"]> $
  <["region" := "region"]> ∅.

(** [title(category, question)]: the f-string looks [question] up first.
    The two arguments are the [value]s of the dropdowns, strings. *)
Definition title (category question : string) : App string :=
  let q := title_q in
  let c := title_c in
  qtext ← lift (PyDict.getitem q question);
  clabel ← lift (PyDict.getitem c category);
  mret (dquote +:+ qtext +:+ dquote +:+ " by " +:+ clabel).

(** Line 315: [bars = gss_clean[[category, question]].value_counts().reset_index()] *)
Definition bars (category question : string) : App DataFrame :=
  gss_clean ← read_gss_clean;
  selected ← lift (Frame.getitem_list gss_clean [category; question]);
  counts ← lift (Counts.value_counts selected);
  mret (Counts.reset_index counts).

(** The [labels] argument of [px.bar] in [user_bar]. *)
Definition user_bar_labels : gmap string string :=
  <["male_breadwinner" := "Response"]> $
  <["satjob" := "Response"]> $
  <["relationship" := "Response"]> $
  <["men_bettersuited" := "Response"]> $
  <["child_suffer" := "Response"]> $
  <["men_overwork" := "Response"]> $
  <["count" := "Frequency"]> ∅.

(** [user_bar(category, question)] *)
Definition user_bar (category question : string) : App Px.Figure :=
  bars ← bars category question;
  barplot ← lift (Px.bar bars category "count" question 400 630
                    user_bar_labels "group");
  mret (Px.update_layout barplot "top" (Q2Qc (95 # 100)) "right" (Q2Qc (95 # 100)) "").

(** ** A small survey *)
Module Sample.

Definition n (z : Z) : cell := Num (Q2Qc (inject_Z z)).

Definition gss_columns : list (string * dtype) :=
  [("year", int64); ("id", int64); ("wtss", float64); ("sex", object);
   ("educ", float64); ("region", object); ("age", object);
   ("coninc", float64); ("prestg10", float64); ("mapres10", float64);
   ("papres10", float64); ("sei10", float64); ("satjob", object);
   ("fechld", object); ("fefam", object); ("fepol", object);
   ("fepresch", float64); ("meovrwrk", object)].

Definition respondent (id : Z) (sex : string) (educ : cell) (region : string)
    (age satjob fefam : cell) : list cell :=
  [n 2018; n id; n 1; Str sex; educ; Str region; age;
   n 30000; n 40; n 35; n 45; n 50; satjob;
   Str "agree"; fefam; Str "disagree"; NaN; Str "agree"].

Definition gss : DataFrame :=
  {| columns := gss_columns;
     records :=
       [respondent 1 "male" (n 12) "south atlantic" (Str "43") (Str "very satisfied") (Str "disagree");
        respondent 2 "female" (n 16) "pacific" (Str "89 or older") (Str "very satisfied") NaN;
        respondent 3 "female" NaN "pacific" NaN (Str "a little dissat") (Str "agree");
        respondent 4 "male" (n 12) "new england" (Str "21") NaN (Str "agree");
        respondent 5 "female" (n 16) "pacific" (Str "67") (Str "very satisfied") (Str "agree");
        respondent 6 "male" (n 14) "pacific" (Str "30") (Str "mod. satisfied") (Str "agree")] |}.


(** The globals after the module body has run on [gss]. *)
Definition globals : Globals :=
  {| gss_clean :=
       match prepare gss with
       | Ok d => d
       | Raise _ => {| columns := []; records := [] |}
       end |}.

End Sample.

(** * Properties *)

(** ** Vocabulary *)

(** The column labels of [gss_clean] once the module body has run. *)
Definition gss_clean_columns : list string :=
  ["id"; "weight"; "sex"; "education"; "region"; "age"; "income";
   "job_prestige"; "mother_job_prestige"; "father_job_prestige";
   "socioeconomic_index"; "satjob"; "relationship"; "male_breadwinner";
   "men_bettersuited"; "child_suffer"; "men_overwork"].

(** The records of [df] that have a value both for the category and for
    the question. *)
Definition complete_records (df : DataFrame) (category question : string)
    : list (list cell) :=
  filter (λ r, notna (Frame.field df category r) ∧ notna (Frame.field df question r))
         (records df).

(** The sum of the [count] column of a frequency table. *)
Definition count_total (table : DataFrame) : nat :=
  sum_list_with (λ r, Z.to_nat (Counts.to_Z (Frame.field table "count" r)))
                (records table).

(** What one age cell becomes in lines 38 and 39. *)
Definition coerce_age (c : cell) : result cell :=
  Frame.to_float (Frame.replace_cell age_replacements c).

(** [t] occurs in [s] as a substring. *)
Definition occurs_in (t s : string) : Prop :=
  ∃ pre post, s = pre +:+ t +:+ post.

(** The text the f-string of [title] builds from its two lookups. *)
Definition title_text (qtext clabel : string) : string :=
  dquote +:+ qtext +:+ dquote +:+ " by " +:+ clabel.

(** Number of records of [df] whose category is [x] and whose question
    is [y]. *)
Definition pair_count (df : DataFrame) (category question : string) (x y : cell)
    : nat :=
  length (filter (λ r, Frame.field df category r = x ∧ Frame.field df question r = y)
                 (records df)).

(** The height of a bar. *)
Definition bar_height (c : cell) : nat := Z.to_nat (Counts.to_Z c).

(** The heights of all bars of a chart, added up. *)
Definition chart_total (fig : Px.Figure) : nat :=
  sum_list_with (λ t, sum_list_with bar_height (Px.y t)) (Px.data fig).

(** The labels of the frame read from the file that the module asks for
    and does not find. *)
Definition missing_columns (gss : DataFrame) : list string :=
  filter (λ n, n ∉ Frame.names gss) mycols.

(** The label a column of the file has in [gss_clean]. *)
Definition renamed (n : string) : string := PyDict.get renamed_columns n n.

(** A survey file without the [age] and [fepol] columns. *)
Definition gss_two_columns_short : DataFrame :=
  {| columns := filter (λ c, c.1 ≠ "age" ∧ c.1 ≠ "fepol") Sample.gss_columns;
     records := [] |}.

(** The [count] column of a frequency table, from the first row down. *)
Definition count_column (table : DataFrame) : list nat :=
  (λ r, bar_height (Frame.field table "count" r)) <$> records table.

(** The pairs of values of the records that have both. *)
Definition complete_pairs (df : DataFrame) (a b : string) : list (list cell) :=
  (λ r, [Frame.field df a r; Frame.field df b r]) <$> complete_records df a b.

(** The row of the frequency table for a group and its size. *)
Definition table_row (g : list cell * nat) : list cell := g.1 ++ [Counts.of_nat g.2].

(** The sample survey as another file could hold it: without the [year]
    column and with the other columns in reverse order. *)
Definition gss_reordered : DataFrame :=
  {| columns := reverse (tail Sample.gss_columns);
     records := (λ r, reverse (tail r)) <$> records Sample.gss |}.

(** A text made of decimal digits only. *)
Definition digits (l : list ascii) : Prop :=
  Forall (λ c, PyFloat.is_digit c = true) l.

(** ** Counting *)

Lemma to_Z_of_nat n : Counts.to_Z (Counts.of_nat n) = Z.of_nat n.
Proof.
  unfold Counts.to_Z, Counts.of_nat. simpl.
  rewrite Qred_identity.
  - simpl. apply Z.div_1_r.
  - simpl. apply Z.gcd_1_r.
Qed.

Lemma length_filter_split {A} (P Q R : A → Prop)
    `{∀ x, Decision (P x)} `{∀ x, Decision (Q x)} `{∀ x, Decision (R x)}
    (l : list A) :
  (∀ x, R x ↔ P x ∨ Q x) →
  (∀ x, P x → Q x → False) →
  length (filter P l) + length (filter Q l) = length (filter R l).
Proof.
  intros HR Hdis. induction l as [| a l IH]; [done |].
  rewrite !filter_cons.
  pose proof (HR a). pose proof (Hdis a).
  repeat case_decide; simpl; try lia; tauto.
Qed.

Lemma sum_occurrences (keys : list (list cell)) (l : list (list cell)) :
  NoDup keys →
  sum_list_with (λ k, Counts.occurrences k l) keys = length (filter (λ r, r ∈ keys) l).
Proof.
  induction 1 as [| k keys Hk Hnd IH]; simpl.
  - induction l as [| a l IHl]; [done |].
    rewrite filter_cons. case_decide; [by apply elem_of_nil in H | done].
  - rewrite IH. unfold Counts.occurrences.
    apply length_filter_split.
    + intros r. rewrite elem_of_cons. naive_solver.
    + intros r -> Hin. done.
Qed.

Lemma filter_all {A} (P : A → Prop) `{∀ x, Decision (P x)} (l : list A) :
  (∀ x, x ∈ l → P x) → filter P l = l.
Proof.
  intros HP. induction l as [| a l IH]; [done |].
  rewrite filter_cons. rewrite decide_True by (apply HP; left).
  f_equal. apply IH. intros x Hx. apply HP. by right.
Qed.

Lemma sum_list_with_fmap {A B} (f : B → nat) (g : A → B) (l : list A) :
  sum_list_with f (g <$> l) = sum_list_with (f ∘ g) l.
Proof. induction l as [| a l IH]; csimpl; [done | by rewrite IH]. Qed.

Lemma insert_size_Permutation g l : Counts.insert_size g l ≡ₚ g :: l.
Proof.
  induction l as [| h l IH]; simpl; [done |].
  case_decide; [done |]. by rewrite IH, Permutation_swap.
Qed.

Lemma sort_values_Permutation l : Counts.sort_values l ≡ₚ l.
Proof.
  induction l as [| g l IH]; simpl; [done |].
  by rewrite insert_size_Permutation, IH.
Qed.

Lemma insert_size_sorted g l :
  StronglySorted Counts.larger_first l →
  StronglySorted Counts.larger_first (Counts.insert_size g l).
Proof.
  induction 1 as [| h l Hl IH Hh]; simpl.
  - repeat constructor.
  - case_decide as Hg.
    + constructor; [by constructor |].
      constructor; [done |].
      eapply Forall_impl; [exact Hh |].
      intros k Hk. unfold Counts.larger_first in *. lia.
    + constructor; [done |].
      rewrite insert_size_Permutation. constructor; [| done].
      unfold Counts.larger_first. lia.
Qed.

Lemma sort_values_sorted l : StronglySorted Counts.larger_first (Counts.sort_values l).
Proof.
  induction l as [| g l IH]; simpl; [constructor | by apply insert_size_sorted].
Qed.

Lemma value_counts_total df c :
  Counts.value_counts df = Ok c →
  sum_list_with snd (Counts.sizes c) =
    length (filter (λ r, forallb notna r) (records df)).
Proof.
  unfold Counts.value_counts. case_decide; [| done].
  intros [= <-]. simpl.
  rewrite (sum_list_with_Permutation_proper _ _ _ (sort_values_Permutation _)).
  rewrite sum_list_with_fmap.
  rewrite (sum_list_with_Permutation_proper _ _ _ (merge_sort_Permutation _ _)).
  set (complete := filter _ (records df)).
  change (sum_list_with (λ k, Counts.occurrences k complete) (remove_dups complete)
          = length complete).
  rewrite sum_occurrences by apply NoDup_remove_dups.
  f_equal. apply filter_all. intros r Hr. by apply elem_of_remove_dups.
Qed.

(** ** Frames *)

Lemma position_lookup name (l : list string) i :
  Frame.position name l = Some i → l !! i = Some name.
Proof.
  revert i. induction l as [| n l IH]; intros i; simpl; [done |].
  case_decide as Hn.
  - intros [= <-]. by subst.
  - destruct (Frame.position name l) as [j |] eqn:Hj; [| done].
    intros [= <-]. by apply IH.
Qed.

Lemma position_None name (l : list string) :
  Frame.position name l = None ↔ name ∉ l.
Proof.
  induction l as [| n l IH]; simpl.
  - split; [intros _; apply not_elem_of_nil | done].
  - rewrite not_elem_of_cons. case_decide as Hn.
    + split; [done | intros [? _]; congruence].
    + destruct (Frame.position name l); simpl.
      * split; [done |]. intros [_ H]. by apply IH in H.
      * split; [| done]. intros _. split; [congruence | by apply IH].
Qed.

Lemma position_is_Some name (l : list string) :
  name ∈ l → is_Some (Frame.position name l).
Proof.
  intros Hin. destruct (Frame.position name l) eqn:H; [by eexists |].
  by apply position_None in H.
Qed.

Lemma at_lookup i (r : list cell) : Frame.at_ i r = default NaN (r !! i).
Proof. apply nth_lookup. Qed.

Lemma getitem_pair df a b :
  a ∈ Frame.names df → b ∈ Frame.names df →
  ∃ ta tb,
    Frame.getitem_list df [a; b] =
      Ok {| columns := [(a, ta); (b, tb)];
            records := (λ r, [Frame.field df a r; Frame.field df b r]) <$> records df |}.
Proof.
  intros [i Hi]%position_is_Some [j Hj]%position_is_Some.
  pose proof (position_lookup _ _ _ Hi) as Hli.
  pose proof (position_lookup _ _ _ Hj) as Hlj.
  unfold Frame.names in Hli, Hlj. rewrite list_lookup_fmap in Hli, Hlj.
  destruct (columns df !! i) as [[a' ta] |] eqn:Hci; simplify_eq/=.
  destruct (columns df !! j) as [[b' tb] |] eqn:Hcj; simplify_eq/=.
  exists ta, tb. unfold Frame.getitem_list.
  rewrite !filter_cons, filter_nil, Hi, Hj. simpl.
  rewrite Hi, Hj. simpl. rewrite Hci, Hcj. simpl.
  do 2 f_equal. apply list_fmap_ext. intros _ r _. unfold Frame.field.
  by rewrite Hi, Hj.
Qed.

Lemma getitem_pair_missing df a b :
  a ∉ Frame.names df ∨ b ∉ Frame.names df →
  ∃ m, Frame.getitem_list df [a; b] = Raise (KeyError m).
Proof.
  intros H. unfold Frame.getitem_list.
  rewrite !filter_cons, filter_nil.
  destruct H as [H | H]; apply position_None in H; rewrite H; simpl.
  - by eexists.
  - case_decide; by eexists.
Qed.

Lemma getitem_list_select df ns :
  filter (λ n, Frame.position n (Frame.names df) = None) ns = [] →
  (omap (λ i, columns df !! i) (omap (λ n, Frame.position n (Frame.names df)) ns)).*1 = ns ∧
  ∀ r, (λ i, Frame.at_ i r) <$> omap (λ n, Frame.position n (Frame.names df)) ns
       = (λ n, Frame.field df n r) <$> ns.
Proof.
  induction ns as [| n ns IH]; [done |].
  rewrite filter_cons. case_decide as Hn; [done |]. intros Hf.
  destruct (IH Hf) as [IH1 IH2].
  destruct (Frame.position n (Frame.names df)) as [i |] eqn:Hi; [| done].
  pose proof (position_lookup _ _ _ Hi) as Hli.
  unfold Frame.names in Hli. rewrite list_lookup_fmap in Hli.
  destruct (columns df !! i) as [[n' t] |] eqn:Hci; [| done].
  injection Hli as ->.
  csimpl. rewrite Hi. csimpl. rewrite Hci. csimpl. split.
  - by rewrite IH1.
  - intros r. rewrite IH2. unfold Frame.field at 2. by rewrite Hi.
Qed.

Lemma getitem_list_Ok df ns d :
  Frame.getitem_list df ns = Ok d →
  Frame.names d = ns ∧
  records d = (λ r, (λ n, Frame.field df n r) <$> ns) <$> records df.
Proof.
  unfold Frame.getitem_list.
  destruct (filter _ ns) eqn:Hf; [| done].
  intros [= <-]. destruct (getitem_list_select _ _ Hf) as [H1 H2].
  split; [done |]. simpl. apply list_fmap_ext. intros _ r _. apply H2.
Qed.

Lemma getitem_list_present df ns :
  Forall (λ n, n ∈ Frame.names df) ns →
  ∃ d, Frame.getitem_list df ns = Ok d.
Proof.
  intros Hall. unfold Frame.getitem_list.
  assert (filter (λ n, Frame.position n (Frame.names df) = None) ns = []) as ->;
    [| by eexists].
  induction Hall as [| n ns Hn _ IH]; [done |].
  rewrite filter_cons. case_decide as Hp; [| done].
  by apply position_None in Hp.
Qed.

(** ** Conversions that may raise *)

Lemma result_mapM_Ok {A B} (f : A → result B) l l' :
  result_mapM f l = Ok l' ↔ Forall2 (λ a b, f a = Ok b) l l'.
Proof.
  revert l'. induction l as [| a l IH]; intros l'; simpl.
  - split; [intros [= <-]; constructor | intros H%Forall2_nil_inv_l; by subst].
  - split.
    + destruct (f a) as [b | e] eqn:Hfa; simpl; [| done].
      destruct (result_mapM f l) as [bs | e]; simpl; [| done].
      intros [= <-]. constructor; [done | by apply IH].
    + intros (b & bs & Hb & Hbs & ->)%Forall2_cons_inv_l.
      rewrite Hb. simpl. apply IH in Hbs. by rewrite Hbs.
Qed.

Lemma result_mapM_fmap {A B C} (f : B → result C) (g : A → B) l :
  result_mapM f (g <$> l) = result_mapM (f ∘ g) l.
Proof. induction l as [| a l IH]; csimpl; [done | by rewrite IH]. Qed.



(** ** Assigning a column *)

Lemma setattr_at df name s i :
  Frame.position name (Frame.names df) = Some i →
  Frame.setattr df name s =
    {| columns := <[i := (name, s_dtype s)]> (columns df);
       records := zip_with (λ r v, <[i := v]> r) (records df) (values s) |}.
Proof. intros Hi. unfold Frame.setattr. by rewrite Hi. Qed.

Lemma names_insert (cols : list (string * dtype)) name t i :
  cols.*1 !! i = Some name → (<[i := (name, t)]> cols).*1 = cols.*1.
Proof.
  intros Hi. rewrite list_fmap_insert. simpl. by apply list_insert_id.
Qed.

Lemma at_insert i v (r : list cell) :
  v = NaN ∨ i < length r →
  Frame.at_ i (<[i := v]> r) = v.
Proof.
  intros Hv. rewrite at_lookup.
  destruct (decide (i < length r)) as [Hlt | Hge].
  - by rewrite list_lookup_insert_eq.
  - destruct Hv as [-> | ?]; [| done].
    rewrite list_insert_ge by lia. rewrite lookup_ge_None_2 by lia. done.
Qed.

Lemma at_out_of_range i (r : list cell) : length r ≤ i → Frame.at_ i r = NaN.
Proof. intros H. rewrite at_lookup. by rewrite lookup_ge_None_2. Qed.

(** Lines 38 and 39 as one pass over the age column. *)
Lemma clean_age_pass df i :
  Frame.position "age" (Frame.names df) = Some i →
  clean_age df =
    (vs ← result_mapM coerce_age (Frame.at_ i <$> records df);
     mret {| columns := <[i := ("age", float64)]> (columns df);
             records := zip_with (λ r v, <[i := v]> r) (records df) vs |}).
Proof.
  intros Hi. pose proof (position_lookup _ _ _ Hi) as Hli.
  unfold clean_age, Frame.getattr. rewrite Hi. simpl.
  rewrite (setattr_at _ _ _ i Hi). unfold Frame.names at 1. simpl.
  rewrite names_insert by done. fold (Frame.names df). rewrite Hi. simpl.
  unfold Frame.astype_float. simpl.
  rewrite !zip_with_fmap_r, !zip_with_diag.
  rewrite <- !list_fmap_compose.
  assert ((Frame.at_ i ∘ (λ r, <[i := Frame.replace_cell age_replacements (Frame.at_ i r)]> r))
          <$> records df
          = (Frame.replace_cell age_replacements ∘ Frame.at_ i) <$> records df) as ->.
  { apply list_fmap_ext. intros _ r _. simpl.
    destruct (decide (i < length r)) as [Hlt | Hge].
    - apply at_insert. by right.
    - rewrite (at_out_of_range i r) by lia. apply at_insert. by left. }
  rewrite list_fmap_compose, result_mapM_fmap.
  change (Frame.to_float ∘ Frame.replace_cell age_replacements) with coerce_age.
  rewrite result_mapM_fmap.
  destruct (result_mapM _ (records df)) as [vs | e]; simpl; [| done].
  unfold Frame.setattr. simpl. unfold Frame.names at 1. simpl.
  rewrite names_insert by done. fold (Frame.names df). rewrite Hi.
  do 2 f_equal.
  - by rewrite list_insert_insert_eq.
  - rewrite zip_with_fmap_l. apply zip_with_ext; [| done..].
    intros r v. simpl. by rewrite list_insert_insert_eq.
Qed.

(** ** The module body *)

Lemma rename_names df mapping :
  Frame.names (Frame.rename df mapping) =
    (λ n, PyDict.get mapping n n) <$> Frame.names df.
Proof.
  unfold Frame.names, Frame.rename. simpl.
  rewrite <- !list_fmap_compose. by apply list_fmap_ext.
Qed.

(** The module body as one selection followed by one pass over the ages. *)
Lemma prepare_pass gss sel :
  Frame.getitem_list gss mycols = Ok sel →
  prepare gss =
    (vs ← result_mapM coerce_age (Frame.field gss "age" <$> records gss);
     mret {| columns := <[5 := ("age", float64)]>
                          (columns (Frame.rename sel renamed_columns));
             records := zip_with (λ r v, <[5 := v]> r) (records sel) vs |}).
Proof.
  intros Hsel. unfold prepare. rewrite Hsel. simpl.
  destruct (getitem_list_Ok _ _ _ Hsel) as [Hn Hr].
  assert (Frame.names (Frame.rename sel renamed_columns) = gss_clean_columns) as Hnames.
  { rewrite rename_names, Hn. reflexivity. }
  rewrite (clean_age_pass _ 5) by (by rewrite Hnames).
  change (records (Frame.rename sel renamed_columns)) with (records sel).
  rewrite Hr at 1. rewrite <- list_fmap_compose.
  done.
Qed.

Lemma prepare_names gss clean :
  prepare gss = Ok clean → Frame.names clean = gss_clean_columns.
Proof.
  destruct (Frame.getitem_list gss mycols) as [sel | e] eqn:Hsel.
  - rewrite (prepare_pass _ _ Hsel).
    destruct (result_mapM _ _) as [vs | e]; simpl; [| done].
    intros [= <-]. unfold Frame.names at 1. simpl.
    destruct (getitem_list_Ok _ _ _ Hsel) as [Hn _].
    assert (Frame.names (Frame.rename sel renamed_columns) = gss_clean_columns) as Hnames.
    { rewrite rename_names, Hn. reflexivity. }
    unfold Frame.names in Hnames. simpl in Hnames.
    rewrite names_insert; by rewrite Hnames.
  - unfold prepare. by rewrite Hsel.
Qed.

(** Record by record: the age of the prepared record is the coerced age of
    the raw one. *)
Lemma prepare_ages gss clean k r :
  prepare gss = Ok clean →
  records gss !! k = Some r →
  ∃ r', records clean !! k = Some r' ∧
        coerce_age (Frame.field gss "age" r) = Ok (Frame.field clean "age" r').
Proof.
  intros Hp Hr. pose proof (prepare_names _ _ Hp) as Hnames.
  destruct (Frame.getitem_list gss mycols) as [sel | e] eqn:Hsel;
    [| unfold prepare in Hp; by rewrite Hsel in Hp].
  rewrite (prepare_pass _ _ Hsel) in Hp.
  destruct (result_mapM _ _) as [vs | e] eqn:Hvs; simpl in Hp; [| done].
  injection Hp as <-.
  apply result_mapM_Ok in Hvs.
  destruct (Forall2_lookup_l _ _ _ k (Frame.field gss "age" r) Hvs) as (v & Hv & Hc).
  { by rewrite list_lookup_fmap, Hr. }
  destruct (getitem_list_Ok _ _ _ Hsel) as [_ Hrec].
  exists (<[5 := v]> ((λ n, Frame.field gss n r) <$> mycols)). split.
  - simpl. rewrite lookup_zip_with, Hrec, list_lookup_fmap, Hr. simpl.
    by rewrite Hv.
  - rewrite Hc. f_equal. unfold Frame.field at 1. by rewrite Hnames.
Qed.


(** ** The frequency table *)

Lemma filter_fmap {A B} (f : A → B) (P : B → Prop) `{∀ y, Decision (P y)}
    (l : list A) :
  filter P (f <$> l) = f <$> filter (P ∘ f) l.
Proof.
  induction l as [| a l IH]; [done |].
  rewrite fmap_cons, !filter_cons. simpl.
  destruct (decide (P (f a))); by rewrite IH.
Qed.

(** The records that [value_counts] keeps of a selection of two columns. *)
Lemma complete_selection df a b :
  filter (λ r, forallb notna r)
         ((λ r, [Frame.field df a r; Frame.field df b r]) <$> records df)
  = (λ r, [Frame.field df a r; Frame.field df b r]) <$> complete_records df a b.
Proof.
  unfold complete_records. rewrite filter_fmap. f_equal.
  apply list_filter_iff. intros r. simpl.
  destruct (notna (Frame.field df a r)), (notna (Frame.field df b r)); simpl; tauto.
Qed.

Lemma sum_list_with_ext {A} (f g : A → nat) (l : list A) :
  Forall (λ x, f x = g x) l → sum_list_with f l = sum_list_with g l.
Proof. induction 1 as [| x l Hx _ IH]; simpl; [done | by rewrite Hx, IH]. Qed.

(** The keys of the sizes are records of the frame. *)
Lemma value_counts_keys df c :
  Counts.value_counts df = Ok c →
  Counts.levels c = columns df ∧
  Forall (λ g, g.1 ∈ records df) (Counts.sizes c).
Proof.
  unfold Counts.value_counts. case_decide; [| done].
  intros [= <-]. simpl. split; [done |].
  rewrite sort_values_Permutation. apply Forall_fmap, Forall_forall.
  intros k Hk. simpl.
  rewrite merge_sort_Permutation in Hk.
  apply elem_of_remove_dups, list_elem_of_filter in Hk. tauto.
Qed.

Lemma value_counts_empty df c :
  Counts.value_counts df = Ok c →
  filter (λ r, forallb notna r) (records df) = [] →
  Counts.sizes c = [].
Proof.
  unfold Counts.value_counts. case_decide; [| done].
  intros [= <-] ->. reflexivity.
Qed.

(** Line 315 on a frame that has the two columns. *)
Lemma bars_run g a b :
  a ∈ Frame.names (gss_clean g) →
  b ∈ Frame.names (gss_clean g) →
  a ≠ b →
  ∃ ta tb c,
    Counts.value_counts
      {| columns := [(a, ta); (b, tb)];
         records := (λ r, [Frame.field (gss_clean g) a r; Frame.field (gss_clean g) b r])
                    <$> records (gss_clean g) |} = Ok c ∧
    bars a b g = (Ok (Counts.reset_index c), g).
Proof.
  intros Ha Hb Hab. destruct (getitem_pair _ _ _ Ha Hb) as (ta & tb & Hsel).
  exists ta, tb.
  set (sel := {| columns := [(a, ta); (b, tb)]; records := _ |}) in *.
  destruct (Counts.value_counts sel) as [c | e] eqn:Hc.
  - exists c. split; [done |].
    unfold bars, read_gss_clean, lift, mbind, App_bind, mret, App_ret.
    by rewrite Hsel, Hc.
  - exfalso. unfold Counts.value_counts in Hc.
    rewrite decide_True in Hc; [done |].
    unfold Frame.names, sel. simpl.
    apply NoDup_cons. split; [| apply NoDup_singleton].
    by intros ->%list_elem_of_singleton.
Qed.

Lemma count_total_reset_index a ta b tb c :
  a ≠ "count" → b ≠ "count" →
  Counts.levels c = [(a, ta); (b, tb)] →
  Forall (λ g, length g.1 = 2) (Counts.sizes c) →
  count_total (Counts.reset_index c) = sum_list_with snd (Counts.sizes c).
Proof.
  intros Ha Hb Hl Hk. unfold count_total, Counts.reset_index. simpl.
  rewrite sum_list_with_fmap. apply sum_list_with_ext.
  eapply Forall_impl; [exact Hk |]. intros [k n] Hlen. simpl in *.
  unfold Frame.field, Frame.names. simpl. rewrite Hl. simpl.
  rewrite decide_False by done. simpl. rewrite decide_False by done. simpl.
  destruct k as [| x [| y [| z k]]]; simpl in Hlen; try lia.
  change (Z.to_nat (Counts.to_Z (Counts.of_nat n)) = n).
  rewrite to_Z_of_nat. apply Nat2Z.id.
Qed.

Lemma bars_total g a b :
  a ∈ Frame.names (gss_clean g) →
  b ∈ Frame.names (gss_clean g) →
  a ≠ b → a ≠ "count" → b ≠ "count" →
  ∃ table,
    bars a b g = (Ok table, g) ∧
    count_total table = length (complete_records (gss_clean g) a b) ∧
    (complete_records (gss_clean g) a b = [] → records table = []).
Proof.
  intros Ha Hb Hab Hac Hbc.
  destruct (bars_run g a b Ha Hb Hab) as (ta & tb & c & Hc & Hrun).
  exists (Counts.reset_index c). split; [done |].
  destruct (value_counts_keys _ _ Hc) as [Hl Hk]. simpl in Hl, Hk.
  split.
  - rewrite (count_total_reset_index a ta b tb); try done.
    + rewrite (value_counts_total _ _ Hc). simpl.
      by rewrite complete_selection, length_fmap.
    + eapply Forall_impl; [exact Hk |]. intros [k n]. simpl.
      by intros (r & -> & _)%list_elem_of_fmap.
  - intros Hnone. unfold Counts.reset_index. simpl.
    rewrite (value_counts_empty _ _ Hc); [done |].
    simpl. by rewrite complete_selection, Hnone.
Qed.

(** ** The chart *)

Lemma traces_no_records df x y color :
  records df = [] →
  sum_list ((λ t, length (Px.y t)) <$> Px.traces df x y color) = 0.
Proof.
  intros Hr. unfold Px.traces. rewrite Hr.
  by destruct (is_numeric _).
Qed.

Lemma bar_run df x y color h w labels mode :
  x ∈ Frame.names df → y ∈ Frame.names df → color ∈ Frame.names df →
  ∃ fig, Px.bar df x y color h w labels mode = Ok fig ∧
         Px.data fig = Px.traces df x y color.
Proof.
  intros [i Hi]%position_is_Some [j Hj]%position_is_Some [k Hk]%position_is_Some.
  unfold Px.bar, Px.check_column. rewrite Hi, Hj, Hk. simpl.
  by eexists.
Qed.

(** [user_bar] on a frame that has the two columns. *)
Lemma user_bar_run g a b :
  a ∈ Frame.names (gss_clean g) →
  b ∈ Frame.names (gss_clean g) →
  a ≠ b →
  ∃ table fig,
    bars a b g = (Ok table, g) ∧
    user_bar a b g = (Ok fig, g) ∧
    Px.data fig = Px.traces table a "count" b.
Proof.
  intros Ha Hb Hab.
  destruct (bars_run g a b Ha Hb Hab) as (ta & tb & c & Hc & Hrun).
  destruct (value_counts_keys _ _ Hc) as [Hl _]. simpl in Hl.
  destruct (bar_run (Counts.reset_index c) a "count" b 400 630
              user_bar_labels "group") as (barplot & Hbar & Hdata).
  1-3: unfold Frame.names, Counts.reset_index; simpl; rewrite Hl; simpl.
  1-3: repeat first [apply list_elem_of_here | apply list_elem_of_further].
  exists (Counts.reset_index c). eexists. split; [done |]. split.
  - unfold user_bar, lift, mbind, App_bind, mret, App_ret.
    by rewrite Hrun, Hbar.
  - done.
Qed.

Lemma user_bar_missing g a b :
  a ∉ Frame.names (gss_clean g) ∨ b ∉ Frame.names (gss_clean g) →
  ∃ m, user_bar a b g = (Raise (KeyError m), g).
Proof.
  intros [m Hm]%getitem_pair_missing. exists m.
  unfold user_bar, bars, read_gss_clean, lift, mbind, App_bind, mret, App_ret.
  by rewrite Hm.
Qed.

Lemma user_bar_same_column g a :
  a ∈ Frame.names (gss_clean g) →
  ∃ t, user_bar a a g = (Raise (ValueError t), g).
Proof.
  intros Ha. destruct (getitem_pair _ _ _ Ha Ha) as (ta & tb & Hsel).
  eexists.
  unfold user_bar, bars, read_gss_clean, lift, mbind, App_bind, mret, App_ret.
  rewrite Hsel. unfold Counts.value_counts, Frame.names. simpl.
  rewrite decide_False; [done |].
  intros [Hn _]%NoDup_cons. apply Hn. apply list_elem_of_here.
Qed.

(** ** The title *)

Ltac option_cases H :=
  repeat (apply elem_of_cons in H as [-> | H]); [.. | by apply elem_of_nil in H].

Lemma append_empty_r (s : string) : s +:+ "" = s.
Proof.
  induction s as [| a s IH]; [done |].
  change (String a (s +:+ "") = String a s). by rewrite IH.
Qed.

Lemma append_assoc (s t u : string) : (s +:+ t) +:+ u = s +:+ t +:+ u.
Proof.
  induction s as [| a s IH]; [done |].
  change (String a ((s +:+ t) +:+ u) = String a (s +:+ t +:+ u)). by rewrite IH.
Qed.

Lemma title_text_occurs qtext clabel :
  occurs_in qtext (title_text qtext clabel) ∧
  occurs_in clabel (title_text qtext clabel).
Proof.
  split.
  - by exists dquote, (dquote +:+ " by " +:+ clabel).
  - exists (dquote +:+ qtext +:+ dquote +:+ " by "), "".
    unfold title_text.
    by rewrite append_empty_r, !append_assoc.
Qed.

Lemma title_run category question qtext clabel g :
  title_q !! question = Some qtext →
  title_c !! category = Some clabel →
  title category question g = (Ok (title_text qtext clabel), g).
Proof.
  intros Hq Hc. unfold title, lift, PyDict.getitem, mbind, App_bind, mret, App_ret.
  by rewrite Hq, Hc.
Qed.

Lemma valid_question_lookup question :
  valid_question question → is_Some (title_q !! question).
Proof. intros H. unfold valid_question in H. simpl in H. option_cases H; by eexists. Qed.

Lemma valid_category_lookup category :
  valid_category category → is_Some (title_c !! category).
Proof. intros H. unfold valid_category in H. simpl in H. option_cases H; by eexists. Qed.

Ltac offered :=
  unfold valid_category, valid_question; simpl;
  repeat first [apply list_elem_of_here | apply list_elem_of_further].

(** C2: for every category and question the dropdowns offer, [title]
    returns the text [dquote qtext dquote by clabel], where [qtext] and
    [clabel] are the entries of the two dictionaries of [title]; the text
    is not empty and both entries occur in it. *)
Theorem title_is_question_by_category category question g :
  valid_category category →
  valid_question question →
  ∃ qtext clabel s,
    title_q !! question = Some qtext ∧
    title_c !! category = Some clabel ∧
    title category question g = (Ok s, g) ∧
    s = dquote +:+ qtext +:+ dquote +:+ " by " +:+ clabel ∧
    s ≠ "" ∧
    occurs_in qtext s ∧
    occurs_in clabel s.
Proof.
  intros Hc Hq.
  destruct (valid_question_lookup _ Hq) as [qtext Hqt].
  destruct (valid_category_lookup _ Hc) as [clabel Hcl].
  exists qtext, clabel, (title_text qtext clabel).
  repeat split; try done.
  - by apply title_run.
  - apply title_text_occurs.
  - apply title_text_occurs.
Qed.

Lemma title_is_question_by_category_witness :
  ∃ qtext clabel s,
    title_q !! "men_overwork" = Some qtext ∧
    title_c !! "education" = Some clabel ∧
    title "education" "men_overwork" Sample.globals = (Ok s, Sample.globals) ∧
    s = dquote +:+ qtext +:+ dquote +:+ " by " +:+ clabel ∧
    s ≠ "" ∧
    occurs_in qtext s ∧
    occurs_in clabel s.
Proof.
  apply (title_is_question_by_category "education" "men_overwork" Sample.globals);
    offered.
Defined.

(** C3: with the category [sex] and the question [satjob], [title]
    returns the satjob question between double quotes, followed by
    [ by sex]. *)
Theorem title_sex_satjob g :
  title "sex" "satjob" g =
    (Ok (dquote +:+ "On the whole, how satisfied are you with the work you do?"
           +:+ dquote +:+ " by sex"), g).
Proof. by apply title_run. Qed.

(** C8: with the question held at [satjob], the titles for the categories
    [sex] and [region] are the same quoted question text followed by
    [ by ] and differ in the category label alone. *)
Theorem title_category_switch g :
  ∃ qtext,
    title_q !! "satjob" = Some qtext ∧
    title_c !! "sex" = Some "sex" ∧
    title_c !! "region" = Some "region" ∧
    (title "sex" "satjob" g).1 = Ok ((dquote +:+ qtext +:+ dquote +:+ " by ") +:+ "sex") ∧
    (title "region" "satjob" g).1 = Ok ((dquote +:+ qtext +:+ dquote +:+ " by ") +:+ "region").
Proof.
  eexists. split; [reflexivity |].
  split; [reflexivity |]. split; [reflexivity |].
  split.
  - erewrite title_run by reflexivity. unfold title_text. by rewrite !append_assoc.
  - erewrite title_run by reflexivity. unfold title_text. by rewrite !append_assoc.
Qed.

(** C10: for every offered category and question, [title] returns the
    same string whatever the globals hold, and leaves them as they are. *)
Theorem title_ignores_dataset category question g1 g2 :
  valid_category category →
  valid_question question →
  ∃ s,
    title category question g1 = (Ok s, g1) ∧
    title category question g2 = (Ok s, g2).
Proof.
  intros Hc Hq.
  destruct (valid_question_lookup _ Hq) as [qtext Hqt].
  destruct (valid_category_lookup _ Hc) as [clabel Hcl].
  exists (title_text qtext clabel). split; by apply title_run.
Qed.

Lemma title_ignores_dataset_witness :
  ∃ s,
    title "region" "child_suffer" Sample.globals = (Ok s, Sample.globals) ∧
    title "region" "child_suffer" {| gss_clean := Sample.gss |} =
      (Ok s, {| gss_clean := Sample.gss |}).
Proof.
  apply (title_ignores_dataset "region" "child_suffer"); offered.
Defined.

(** ** What the dropdowns offer *)

Lemma valid_category_column category :
  valid_category category → category ∈ gss_clean_columns.
Proof.
  intros H. unfold valid_category in H. simpl in H.
  option_cases H; unfold gss_clean_columns;
    repeat first [apply list_elem_of_here | apply list_elem_of_further].
Qed.

Lemma valid_question_column question :
  valid_question question → question ∈ gss_clean_columns.
Proof.
  intros H. unfold valid_question in H. simpl in H.
  option_cases H; unfold gss_clean_columns;
    repeat first [apply list_elem_of_here | apply list_elem_of_further].
Qed.

Lemma valid_distinct category question :
  valid_category category → valid_question question → category ≠ question.
Proof.
  intros Hc Hq. unfold valid_category in Hc. unfold valid_question in Hq.
  simpl in Hc, Hq. option_cases Hc; option_cases Hq; done.
Qed.

Lemma count_not_column a : a ∈ gss_clean_columns → a ≠ "count".
Proof.
  intros H ->. unfold gss_clean_columns in H.
  repeat (apply elem_of_cons in H as [H | H]; [done |]).
  by apply elem_of_nil in H.
Qed.

Lemma title_q_valid question qtext :
  title_q !! question = Some qtext → valid_question question.
Proof.
  intros H. unfold title_q in H.
  repeat (apply lookup_insert_Some in H as [[<- _] | [_ H]]; [offered |]).
  by rewrite lookup_empty in H.
Qed.

Lemma title_c_valid category clabel :
  title_c !! category = Some clabel → valid_category category.
Proof.
  intros H. unfold title_c in H.
  repeat (apply lookup_insert_Some in H as [[<- _] | [_ H]]; [offered |]).
  by rewrite lookup_empty in H.
Qed.

Lemma title_unknown_question category question g :
  ¬ valid_question question →
  title category question g = (Raise (KeyError [question]), g).
Proof.
  intros Hq. unfold title, lift, PyDict.getitem, mbind, App_bind.
  destruct (title_q !! question) as [qtext |] eqn:H; [| done].
  by apply title_q_valid in H.
Qed.

Lemma title_unknown_category category question g :
  valid_question question →
  ¬ valid_category category →
  title category question g = (Raise (KeyError [category]), g).
Proof.
  intros [qtext Hq]%valid_question_lookup Hc.
  unfold title, lift, PyDict.getitem, mbind, App_bind. rewrite Hq.
  destruct (title_c !! category) as [clabel |] eqn:H; [| done].
  by apply title_c_valid in H.
Qed.

Lemma age_replacement_other s :
  s ≠ "89 or older" → PyDict.get age_replacements s s = s.
Proof.
  intros Hs. unfold PyDict.get, age_replacements.
  by rewrite lookup_insert_ne.
Qed.

(** An offered selection names two different columns of the prepared
    dataset, neither of them called [count]. *)
Lemma offered_selection gss g category question :
  prepare gss = Ok (gss_clean g) →
  valid_category category →
  valid_question question →
  category ∈ Frame.names (gss_clean g) ∧
  question ∈ Frame.names (gss_clean g) ∧
  category ≠ question ∧ category ≠ "count" ∧ question ≠ "count".
Proof.
  intros Hnames%prepare_names Hc Hq. rewrite Hnames.
  pose proof (valid_category_column _ Hc).
  pose proof (valid_question_column _ Hq).
  repeat split; auto using valid_distinct, count_not_column.
Qed.

(** ** The bar chart *)

(** C1: on the prepared dataset, for every category and question the
    dropdowns offer, line 315 of [user_bar] produces a frequency table
    whose counts add up to the number of records that have a value both
    for the category and for the question; [user_bar] returns the chart
    drawn from that table. *)
Theorem bars_count_complete_records gss g category question :
  prepare gss = Ok (gss_clean g) →
  valid_category category →
  valid_question question →
  ∃ table fig,
    bars category question g = (Ok table, g) ∧
    user_bar category question g = (Ok fig, g) ∧
    Px.data fig = Px.traces table category "count" question ∧
    count_total table =
      length (complete_records (gss_clean g) category question).
Proof.
  intros Hp Hc Hq.
  destruct (offered_selection _ _ _ _ Hp Hc Hq) as (Hcc & Hqc & Hne & Hc' & Hq').
  destruct (user_bar_run g category question Hcc Hqc Hne)
    as (table & fig & Hbars & Hfig & Hdata).
  destruct (bars_total g category question Hcc Hqc Hne)
    as (table' & Hbars' & Htotal & _); [done.. |].
  rewrite Hbars in Hbars'. injection Hbars' as <-.
  by exists table, fig.
Qed.

Lemma bars_count_complete_records_witness :
  ∃ table fig,
    bars "sex" "satjob" Sample.globals = (Ok table, Sample.globals) ∧
    user_bar "sex" "satjob" Sample.globals = (Ok fig, Sample.globals) ∧
    Px.data fig = Px.traces table "sex" "count" "satjob" ∧
    count_total table =
      length (complete_records (gss_clean Sample.globals) "sex" "satjob").
Proof.
  apply (bars_count_complete_records Sample.gss Sample.globals "sex" "satjob");
    [vm_compute; reflexivity | offered | offered].
Defined.

(** C7: on the prepared dataset, for every offered category and question
    for which no record has both values, [user_bar] returns a chart: the
    frequency table has no rows and the chart no bars. *)
Theorem user_bar_no_complete_records gss g category question :
  prepare gss = Ok (gss_clean g) →
  valid_category category →
  valid_question question →
  complete_records (gss_clean g) category question = [] →
  ∃ table fig,
    bars category question g = (Ok table, g) ∧
    records table = [] ∧
    user_bar category question g = (Ok fig, g) ∧
    Px.bar_count fig = 0.
Proof.
  intros Hp Hc Hq Hnone.
  destruct (offered_selection _ _ _ _ Hp Hc Hq) as (Hcc & Hqc & Hne & Hc' & Hq').
  destruct (user_bar_run g category question Hcc Hqc Hne)
    as (table & fig & Hbars & Hfig & Hdata).
  destruct (bars_total g category question Hcc Hqc Hne)
    as (table' & Hbars' & _ & Hempty); [done.. |].
  rewrite Hbars in Hbars'. injection Hbars' as <-.
  exists table, fig. repeat split; auto.
  unfold Px.bar_count. rewrite Hdata. apply traces_no_records. auto.
Qed.

Lemma user_bar_no_complete_records_witness :
  ∃ table fig,
    bars "sex" "child_suffer" Sample.globals = (Ok table, Sample.globals) ∧
    records table = [] ∧
    user_bar "sex" "child_suffer" Sample.globals = (Ok fig, Sample.globals) ∧
    Px.bar_count fig = 0.
Proof.
  apply (user_bar_no_complete_records Sample.gss Sample.globals "sex" "child_suffer");
    [vm_compute; reflexivity | offered | offered | vm_compute; reflexivity].
Defined.

(** C9: on the prepared dataset, for every offered category and question,
    [user_bar] returns a chart and leaves the globals as they were, and a
    second call right after the first returns the same chart, traces in
    the same order. *)
Theorem user_bar_twice gss g category question :
  prepare gss = Ok (gss_clean g) →
  valid_category category →
  valid_question question →
  ∃ fig,
    user_bar category question g = (Ok fig, g) ∧
    (first ← user_bar category question;
     second ← user_bar category question;
     mret (first, second)) g = (Ok (fig, fig), g).
Proof.
  intros Hp Hc Hq.
  destruct (offered_selection _ _ _ _ Hp Hc Hq) as (Hcc & Hqc & Hne & Hc' & Hq').
  destruct (user_bar_run g category question Hcc Hqc Hne)
    as (table & fig & _ & Hfig & _).
  exists fig. split; [done |].
  unfold mbind, App_bind. rewrite Hfig. by rewrite Hfig.
Qed.

Lemma user_bar_twice_witness :
  ∃ fig,
    user_bar "region" "male_breadwinner" Sample.globals = (Ok fig, Sample.globals) ∧
    (first ← user_bar "region" "male_breadwinner";
     second ← user_bar "region" "male_breadwinner";
     mret (first, second)) Sample.globals = (Ok (fig, fig), Sample.globals).
Proof.
  apply (user_bar_twice Sample.gss Sample.globals "region" "male_breadwinner");
    [vm_compute; reflexivity | offered | offered].
Defined.

(** ** The age column *)

(** C5: in the prepared dataset, a record whose raw age is the string
    [89 or older] has the number 89 for age. *)
Theorem age_89_or_older gss clean k r :
  prepare gss = Ok clean →
  records gss !! k = Some r →
  Frame.field gss "age" r = Str "89 or older" →
  ∃ r', records clean !! k = Some r' ∧
        Frame.field clean "age" r' = Num (Q2Qc 89).
Proof.
  intros Hp Hr Hage.
  destruct (prepare_ages _ _ _ _ Hp Hr) as (r' & Hr' & Hc).
  exists r'. split; [done |].
  rewrite Hage in Hc.
  assert (coerce_age (Str "89 or older") = Ok (Num (Q2Qc 89))) as H89
    by (vm_compute; reflexivity).
  rewrite H89 in Hc. by injection Hc as <-.
Qed.

Lemma age_89_or_older_witness :
  ∃ r', records (gss_clean Sample.globals) !! 1 = Some r' ∧
        Frame.field (gss_clean Sample.globals) "age" r' = Num (Q2Qc 89).
Proof.
  apply (age_89_or_older Sample.gss (gss_clean Sample.globals) 1
           (Sample.respondent 2 "female" (Sample.n 16) "pacific"
              (Str "89 or older") (Str "very satisfied") NaN));
    vm_compute; reflexivity.
Defined.




(** ** Selections the dropdowns do not offer *)

(** C6, as the specification states it, fails: [age] is not a category
    the dropdown offers, and [user_bar] returns a chart for it. *)
Lemma user_bar_accepts_age :
  ¬ valid_category "age" ∧
  ∃ fig, user_bar "age" "satjob" Sample.globals = (Ok fig, Sample.globals).
Proof.
  split.
  - apply (bool_decide_eq_false_1 _). reflexivity.
  - eexists. vm_compute. reflexivity.
Qed.

(** C6, amended: on the prepared dataset, for a category and a question
    that are not both offered, [title] raises [KeyError] (for the question
    when it is not offered, else for the category) and returns no string.
    [user_bar] raises [KeyError] when one of the two names is not a column
    of the dataset, and [ValueError] when both are the same column; when
    they are two different columns of the dataset it returns a chart. *)
Theorem selection_not_offered gss g category question :
  prepare gss = Ok (gss_clean g) →
  ¬ (valid_category category ∧ valid_question question) →
  title category question g =
    (Raise (KeyError [if decide (valid_question question) then category else question]), g) ∧
  (category ∉ gss_clean_columns ∨ question ∉ gss_clean_columns →
   ∃ m, user_bar category question g = (Raise (KeyError m), g)) ∧
  (category ∈ gss_clean_columns → category = question →
   ∃ t, user_bar category question g = (Raise (ValueError t), g)) ∧
  (category ∈ gss_clean_columns → question ∈ gss_clean_columns →
   category ≠ question →
   ∃ fig, user_bar category question g = (Ok fig, g)).
Proof.
  intros Hnames%prepare_names Hnot. split; [| split; [| split]].
  - case_decide as Hq.
    + apply title_unknown_category; [done | tauto].
    + by apply title_unknown_question.
  - intros H. apply user_bar_missing. by rewrite Hnames.
  - intros Hc <-. apply user_bar_same_column. by rewrite Hnames.
  - intros Hc Hq Hne. rewrite <- Hnames in Hc, Hq.
    destruct (user_bar_run g category question Hc Hq Hne) as (table & fig & _ & Hfig & _).
    by exists fig.
Qed.

Lemma selection_not_offered_witness :
  title "age" "satjob" Sample.globals =
    (Raise (KeyError [if decide (valid_question "satjob") then "age" else "satjob"]),
     Sample.globals) ∧
  ("age" ∉ gss_clean_columns ∨ "satjob" ∉ gss_clean_columns →
   ∃ m, user_bar "age" "satjob" Sample.globals = (Raise (KeyError m), Sample.globals)) ∧
  ("age" ∈ gss_clean_columns → "age" = "satjob" →
   ∃ t, user_bar "age" "satjob" Sample.globals = (Raise (ValueError t), Sample.globals)) ∧
  ("age" ∈ gss_clean_columns → "satjob" ∈ gss_clean_columns →
   "age" ≠ "satjob" →
   ∃ fig, user_bar "age" "satjob" Sample.globals = (Ok fig, Sample.globals)).
Proof.
  apply (selection_not_offered Sample.gss Sample.globals "age" "satjob").
  - vm_compute. reflexivity.
  - apply (bool_decide_eq_false_1 _). vm_compute. reflexivity.
Defined.

(** ** More on the module body *)

Lemma getitem_list_missing df ns :
  filter (λ n, n ∉ Frame.names df) ns ≠ [] →
  Frame.getitem_list df ns = Raise (KeyError (filter (λ n, n ∉ Frame.names df) ns)).
Proof.
  intros Hm. unfold Frame.getitem_list.
  rewrite (list_filter_iff (λ n, Frame.position n (Frame.names df) = None)
             (λ n, n ∉ Frame.names df)) by (intros n; apply position_None).
  by destruct (filter _ ns).
Qed.

Lemma getitem_list_Ok_present df ns d :
  Frame.getitem_list df ns = Ok d → Forall (λ n, n ∈ Frame.names df) ns.
Proof.
  intros Hd. apply Forall_forall. intros n Hn.
  destruct (decide (n ∈ Frame.names df)) as [| Hnot]; [done |].
  rewrite getitem_list_missing in Hd; [done |].
  intros Hnil. assert (n ∈ filter (λ n, n ∉ Frame.names df) ns) as Hin
    by (by apply list_elem_of_filter).
  rewrite Hnil in Hin. by apply elem_of_nil in Hin.
Qed.

Lemma prepare_length gss clean :
  prepare gss = Ok clean → length (records clean) = length (records gss).
Proof.
  intros Hp.
  destruct (Frame.getitem_list gss mycols) as [sel | e] eqn:Hsel;
    [| unfold prepare in Hp; by rewrite Hsel in Hp].
  rewrite (prepare_pass _ _ Hsel) in Hp.
  destruct (result_mapM _ _) as [vs | e] eqn:Hvs; simpl in Hp; [| done].
  injection Hp as <-. simpl.
  apply result_mapM_Ok, Forall2_length in Hvs.
  destruct (getitem_list_Ok _ _ _ Hsel) as [_ Hrec].
  rewrite length_zip_with, Hrec, <- Hvs, !length_fmap. lia.
Qed.

(** X1: the prepared dataset has exactly the seventeen labels of
    [gss_clean_columns], in that order (the two keys [fehire] and
    [fejobaff] of the renaming name no column), and as many records as the
    frame read from the file. *)
Theorem prepare_columns gss clean :
  prepare gss = Ok clean →
  Frame.names clean = gss_clean_columns ∧
  length (records clean) = length (records gss).
Proof. intros Hp. split; [by eapply prepare_names | by apply prepare_length]. Qed.

Lemma prepare_columns_witness :
  Frame.names (gss_clean Sample.globals) = gss_clean_columns ∧
  length (records (gss_clean Sample.globals)) = length (records Sample.gss).
Proof.
  apply (prepare_columns Sample.gss (gss_clean Sample.globals)).
  vm_compute. reflexivity.
Defined.

(** X2: when the frame read from the file lacks some of the columns the
    module selects, the preparation raises [KeyError] with exactly the
    missing labels, in the order of [mycols], whatever the ages are. *)
Theorem prepare_missing_columns gss :
  missing_columns gss ≠ [] →
  prepare gss = Raise (KeyError (missing_columns gss)).
Proof.
  intros Hm. unfold prepare. by rewrite getitem_list_missing.
Qed.

Lemma prepare_missing_columns_witness :
  prepare gss_two_columns_short =
    Raise (KeyError (missing_columns gss_two_columns_short)).
Proof.
  apply (prepare_missing_columns gss_two_columns_short).
  vm_compute. discriminate.
Defined.

Example missing_of_short : missing_columns gss_two_columns_short = ["age"; "fepol"].
Proof. vm_compute. reflexivity. Qed.

Lemma prepare_record gss clean k r :
  prepare gss = Ok clean →
  records gss !! k = Some r →
  ∃ v, coerce_age (Frame.field gss "age" r) = Ok v ∧
       records clean !! k = Some (<[5 := v]> ((λ n, Frame.field gss n r) <$> mycols)).
Proof.
  intros Hp Hr.
  destruct (Frame.getitem_list gss mycols) as [sel | e] eqn:Hsel;
    [| unfold prepare in Hp; by rewrite Hsel in Hp].
  rewrite (prepare_pass _ _ Hsel) in Hp.
  destruct (result_mapM _ _) as [vs | e] eqn:Hvs; simpl in Hp; [| done].
  injection Hp as <-.
  apply result_mapM_Ok in Hvs.
  destruct (Forall2_lookup_l _ _ _ k (Frame.field gss "age" r) Hvs) as (v & Hv & Hc).
  { by rewrite list_lookup_fmap, Hr. }
  destruct (getitem_list_Ok _ _ _ Hsel) as [_ Hrec].
  exists v. split; [done |].
  simpl. rewrite lookup_zip_with, Hrec, list_lookup_fmap, Hr. simpl.
  by rewrite Hv.
Qed.

(** X3: apart from the age, the preparation only relabels: the [k]-th
    prepared record holds, under the new label of every selected column
    other than [age], the value the [k]-th raw record has under the old
    label. *)
Theorem prepare_keeps_other_columns gss clean k r n :
  prepare gss = Ok clean →
  records gss !! k = Some r →
  n ∈ mycols →
  n ≠ "age" →
  ∃ r', records clean !! k = Some r' ∧
        Frame.field clean (renamed n) r' = Frame.field gss n r.
Proof.
  intros Hp Hr Hn Hage.
  pose proof (prepare_names _ _ Hp) as Hnames.
  destruct (prepare_record _ _ _ _ Hp Hr) as (v & _ & Hr').
  eexists. split; [exact Hr' |].
  unfold Frame.field at 1. rewrite Hnames.
  unfold mycols in Hn.
  repeat (apply elem_of_cons in Hn as [-> | Hn]; [try done; reflexivity |]).
  by apply elem_of_nil in Hn.
Qed.

Lemma prepare_keeps_other_columns_witness :
  ∃ r', records (gss_clean Sample.globals) !! 0 = Some r' ∧
        Frame.field (gss_clean Sample.globals) (renamed "fefam") r' =
          Frame.field Sample.gss "fefam"
            (Sample.respondent 1 "male" (Sample.n 12) "south atlantic"
               (Str "43") (Str "very satisfied") (Str "disagree")).
Proof.
  apply (prepare_keeps_other_columns Sample.gss (gss_clean Sample.globals) 0).
  - vm_compute. reflexivity.
  - vm_compute. reflexivity.
  - unfold mycols. repeat first [apply list_elem_of_here | apply list_elem_of_further].
  - discriminate.
Defined.

Lemma result_mapM_is_Ok {A B} (f : A → result B) l :
  is_Ok (result_mapM f l) = true ↔ Forall (λ a, is_Ok (f a) = true) l.
Proof.
  induction l as [| a l IH]; simpl.
  - split; [constructor | done].
  - rewrite Forall_cons, <- IH.
    destruct (f a); simpl; [| split; [done | by intros [? _]]].
    destruct (result_mapM f l); simpl; [done |].
    split; [done | by intros [_ ?]].
Qed.

(** X4: the preparation returns a dataset exactly when the frame read
    from the file has every selected column and every age is missing, a
    number, or a string that [float] accepts once [89 or older] has been
    replaced by [89]. *)
Theorem prepare_succeeds_iff gss :
  is_Ok (prepare gss) = true ↔
  Forall (λ n, n ∈ Frame.names gss) mycols ∧
  Forall (λ r, is_Ok (coerce_age (Frame.field gss "age" r)) = true) (records gss).
Proof.
  rewrite <- (Forall_fmap (Frame.field gss "age") (λ c, is_Ok (coerce_age c) = true)).
  rewrite <- result_mapM_is_Ok.
  split.
  - intros Hok.
    destruct (Frame.getitem_list gss mycols) as [sel | e] eqn:Hsel;
      [| unfold prepare in Hok; by rewrite Hsel in Hok].
    split; [by eapply getitem_list_Ok_present |].
    rewrite (prepare_pass _ _ Hsel) in Hok.
    by destruct (result_mapM _ _).
  - intros [[sel Hsel]%getitem_list_present Hages].
    rewrite (prepare_pass _ _ Hsel).
    by destruct (result_mapM _ _).
Qed.

(** ** The age column after the preparation *)

Lemma round64_not_Str neg q t : PyFloat.round64 neg q ≠ Str t.
Proof.
  unfold PyFloat.round64. destruct (_ <=? _)%Z; [done |].
  by destruct (_ <=? _)%Z.
Qed.

Lemma of_string_not_Str s v : PyFloat.of_string s = Some v → ∀ t, v ≠ Str t.
Proof.
  unfold PyFloat.of_string.
  destruct (PyFloat.drop_underscores _ _) as [body |]; simpl; [| done].
  destruct (PyFloat.take_sign _) as [neg r].
  destruct (_ || _); [by intros [= <-] |].
  destruct (PyFloat.is_word "nan" r); [by intros [= <-] |].
  destruct (PyFloat.parse_finite r); simpl; [| done].
  intros [= <-] t. apply round64_not_Str.
Qed.

Lemma coerce_age_not_Str c v : coerce_age c = Ok v → ∀ t, v ≠ Str t.
Proof.
  unfold coerce_age. destruct c as [| s | x | b]; simpl; try by intros [= <-].
  destruct (PyFloat.of_string _) as [w |] eqn:Hw; [| done].
  intros [= <-]. by eapply of_string_not_Str.
Qed.

Lemma coerce_age_number c : (∀ t, c ≠ Str t) → coerce_age c = Ok c.
Proof. destruct c; try done. intros H. by destruct (H s). Qed.

Lemma prepare_record_inv gss clean k r' :
  prepare gss = Ok clean →
  records clean !! k = Some r' →
  ∃ r v, records gss !! k = Some r ∧
         coerce_age (Frame.field gss "age" r) = Ok v ∧
         r' = <[5 := v]> ((λ n, Frame.field gss n r) <$> mycols).
Proof.
  intros Hp Hr'.
  assert (k < length (records gss)) as Hk.
  { rewrite <- (prepare_length _ _ Hp). by eapply lookup_lt_Some. }
  destruct (lookup_lt_is_Some_2 _ _ Hk) as [r Hr].
  destruct (prepare_record _ _ _ _ Hp Hr) as (v & Hv & Hr'').
  exists r, v. repeat split; [done.. |]. congruence.
Qed.

Lemma prepared_age_column gss clean :
  prepare gss = Ok clean → columns clean !! 5 = Some ("age", float64).
Proof.
  intros Hp.
  destruct (Frame.getitem_list gss mycols) as [sel | e] eqn:Hsel;
    [| unfold prepare in Hp; by rewrite Hsel in Hp].
  rewrite (prepare_pass _ _ Hsel) in Hp.
  destruct (result_mapM _ _) as [vs | e]; simpl in Hp; [| done].
  injection Hp as <-. simpl.
  rewrite list_lookup_insert_eq; [done |].
  destruct (getitem_list_Ok _ _ _ Hsel) as [Hn _].
  rewrite length_fmap.
  unfold Frame.names in Hn. apply (f_equal length) in Hn.
  rewrite length_fmap in Hn. rewrite Hn. simpl. lia.
Qed.

Lemma prepared_age_cells gss clean r' :
  prepare gss = Ok clean →
  r' ∈ records clean →
  ∀ t, Frame.at_ 5 r' ≠ Str t.
Proof.
  intros Hp [k Hk]%list_elem_of_lookup t.
  destruct (prepare_record_inv _ _ _ _ Hp Hk) as (r & v & _ & Hv & ->).
  simpl. by eapply coerce_age_not_Str.
Qed.

(** X5: in the prepared dataset the age column has type [float64] and
    no age is a string. *)
Theorem prepared_age_is_numeric gss clean :
  prepare gss = Ok clean →
  Px.column_dtype clean "age" = float64 ∧
  ∀ r', r' ∈ records clean → ∀ t, Frame.field clean "age" r' ≠ Str t.
Proof.
  intros Hp. pose proof (prepare_names _ _ Hp) as Hnames. split.
  - unfold Px.column_dtype. rewrite Hnames. simpl.
    by rewrite (prepared_age_column _ _ Hp).
  - intros r' Hr' t. unfold Frame.field. rewrite Hnames. simpl.
    by eapply prepared_age_cells.
Qed.

Lemma prepared_age_is_numeric_witness :
  Px.column_dtype (gss_clean Sample.globals) "age" = float64 ∧
  ∀ r', r' ∈ records (gss_clean Sample.globals) →
        ∀ t, Frame.field (gss_clean Sample.globals) "age" r' ≠ Str t.
Proof.
  apply (prepared_age_is_numeric Sample.gss (gss_clean Sample.globals)).
  vm_compute. reflexivity.
Defined.

Lemma insert_own_cell i (r : list cell) : <[i := Frame.at_ i r]> r = r.
Proof.
  apply list_insert_id'. intros Hi.
  destruct (lookup_lt_is_Some_2 _ _ Hi) as [x Hx].
  by rewrite at_lookup, Hx.
Qed.

(** X6: lines 38 and 39 run again on the prepared dataset return it
    unchanged. *)
Theorem clean_age_again gss clean :
  prepare gss = Ok clean →
  clean_age clean = Ok clean.
Proof.
  intros Hp. pose proof (prepare_names _ _ Hp) as Hnames.
  rewrite (clean_age_pass _ 5) by (by rewrite Hnames).
  assert (result_mapM coerce_age (Frame.at_ 5 <$> records clean)
          = Ok (Frame.at_ 5 <$> records clean)) as ->.
  { apply result_mapM_Ok, Forall2_fmap, Forall_Forall2_diag, Forall_forall.
    intros r' Hr'. apply coerce_age_number. by eapply prepared_age_cells. }
  pose proof (prepared_age_column _ _ Hp) as Hcol.
  simpl. destruct clean as [cols recs]. simpl in *. f_equal. f_equal.
  - by apply list_insert_id.
  - rewrite zip_with_fmap_r, zip_with_diag.
    rewrite <- (list_fmap_id recs) at 2. apply list_fmap_ext.
    intros _ r _. apply insert_own_cell.
Qed.

Lemma clean_age_again_witness :
  clean_age (gss_clean Sample.globals) = Ok (gss_clean Sample.globals).
Proof.
  apply (clean_age_again Sample.gss (gss_clean Sample.globals)).
  vm_compute. reflexivity.
Defined.

(** ** Decimal numerals *)

Lemma digit_code c :
  PyFloat.is_digit c = true → 48 ≤ PyFloat.code c ≤ 57.
Proof.
  unfold PyFloat.is_digit. intros [H1 H2]%andb_true_iff.
  apply Nat.leb_le in H1, H2. lia.
Qed.

Lemma digit_not_space c : PyFloat.is_digit c = true → PyFloat.is_space c = false.
Proof.
  intros H%digit_code. unfold PyFloat.is_space.
  apply orb_false_iff. split.
  - apply andb_false_iff. right. apply Nat.leb_gt. lia.
  - apply Nat.eqb_neq. lia.
Qed.

Lemma digits_to_ascii l : digits l → PyFloat.to_ascii l = l.
Proof.
  intros Hl. unfold PyFloat.to_ascii.
  replace (PyFloat.is_ascii l) with true; [done |].
  symmetry. unfold PyFloat.is_ascii. apply forallb_forall. intros c Hc.
  apply list_elem_of_In in Hc.
  apply (proj1 (Forall_forall _ _) Hl), digit_code in Hc.
  apply Nat.ltb_lt. lia.
Qed.

Lemma digit_not_underscore c :
  PyFloat.is_digit c = true → PyFloat.is_underscore c = false.
Proof. intros H%digit_code. unfold PyFloat.is_underscore. apply Nat.eqb_neq. lia. Qed.

Lemma digit_lower c : PyFloat.is_digit c = true → PyFloat.lower c = c.
Proof.
  intros H%digit_code. unfold PyFloat.lower.
  replace (65 <=? PyFloat.code c) with false; [done |].
  symmetry. apply Nat.leb_gt. lia.
Qed.

Lemma lstrip_digit c l :
  PyFloat.is_digit c = true → PyFloat.lstrip (c :: l) = c :: l.
Proof. intros H. simpl. by rewrite digit_not_space. Qed.

Lemma strip_digits l : digits l → PyFloat.strip l = l.
Proof.
  intros Hl. unfold PyFloat.strip. destruct l as [| c l]; [done |].
  rewrite lstrip_digit by (by inversion Hl).
  destruct (rev (c :: l)) as [| d t] eqn:Hrev.
  - apply (f_equal (@rev _)) in Hrev. by rewrite rev_involutive in Hrev.
  - rewrite lstrip_digit.
    + by rewrite <- Hrev, rev_involutive.
    + assert (In d (rev (c :: l))) as Hd by (rewrite Hrev; by left).
      apply in_rev, list_elem_of_In in Hd.
      by eapply (proj1 (Forall_forall _ _) Hl).
Qed.

Lemma drop_underscores_digits prev l :
  digits l →
  match prev with Some p => PyFloat.is_underscore p = false | None => True end →
  PyFloat.drop_underscores prev l = Some l.
Proof.
  intros Hl. revert prev. induction Hl as [| c l Hc _ IH]; intros prev Hprev.
  - simpl. destruct prev as [p |]; [by rewrite Hprev | done].
  - simpl. rewrite (digit_not_underscore _ Hc).
    replace (match prev with Some p => PyFloat.is_underscore p | None => false end)
      with false by (destruct prev; [by rewrite Hprev | done]).
    simpl. rewrite IH; [done |]. by apply digit_not_underscore.
Qed.

Lemma span_digits_digits l : digits l → PyFloat.span_digits l = (l, []).
Proof.
  induction 1 as [| c l Hc _ IH]; [done |]. simpl. by rewrite Hc, IH.
Qed.

Lemma take_sign_digit c l :
  PyFloat.is_digit c = true → PyFloat.take_sign (c :: l) = (false, c :: l).
Proof.
  intros H%digit_code. unfold PyFloat.take_sign.
  replace (PyFloat.code c =? 45) with false by (symmetry; apply Nat.eqb_neq; lia).
  by replace (PyFloat.code c =? 43) with false by (symmetry; apply Nat.eqb_neq; lia).
Qed.

Lemma is_word_digit w c l :
  PyFloat.is_digit c = true →
  match w with
  | EmptyString => True
  | String a _ => PyFloat.is_digit a = false
  end →
  PyFloat.is_word w (c :: l) = false.
Proof.
  intros Hc Hw. unfold PyFloat.is_word. apply bool_decide_eq_false.
  destruct w as [| a w]; simpl; [done |].
  rewrite (digit_lower _ Hc). intros [= -> _]. congruence.
Qed.

Lemma digits_to_Z_acc l acc :
  fold_left (λ acc c, (10 * acc + (Z.of_nat (PyFloat.code c) - 48))%Z) l acc
  = (acc * 10 ^ Z.of_nat (length l) + PyFloat.digits_to_Z l)%Z.
Proof.
  unfold PyFloat.digits_to_Z. revert acc.
  induction l as [| c l IH]; intros acc.
  - simpl. lia.
  - cbn [fold_left length]. rewrite IH. rewrite (IH (10 * 0 + _)%Z).
    rewrite Nat2Z.inj_succ, Z.pow_succ_r by lia. lia.
Qed.

Lemma digits_to_Z_cons c l :
  PyFloat.digits_to_Z (c :: l)
  = ((Z.of_nat (PyFloat.code c) - 48) * 10 ^ Z.of_nat (length l)
     + PyFloat.digits_to_Z l)%Z.
Proof.
  unfold PyFloat.digits_to_Z at 1. cbn [fold_left].
  rewrite digits_to_Z_acc. lia.
Qed.

Lemma digits_to_Z_nonneg l : digits l → (0 ≤ PyFloat.digits_to_Z l)%Z.
Proof.
  induction 1 as [| c l Hc _ IH]; [done |].
  rewrite digits_to_Z_cons. apply digit_code in Hc.
  assert (0 ≤ 10 ^ Z.of_nat (length l))%Z by (apply Z.pow_nonneg; lia). nia.
Qed.

Lemma parse_finite_digits l :
  digits l → l ≠ [] →
  PyFloat.parse_finite l = Some (PyFloat.decimal (PyFloat.digits_to_Z l) 0).
Proof.
  intros Hl Hne. unfold PyFloat.parse_finite.
  rewrite span_digits_digits by done. rewrite app_nil_r.
  by destruct l as [| c l].
Qed.

Lemma round_half_even_unit a : PyFloat.round_half_even a 1 = a.
Proof.
  unfold PyFloat.round_half_even. rewrite Z.mod_1_r, Z.div_1_r. reflexivity.
Qed.

(** An integer below [2^53] is a binary64 number. *)
Lemma round64_integer z :
  (0 ≤ z < 2 ^ 53)%Z →
  PyFloat.round64 false (PyFloat.decimal z 0) = Num (Q2Qc (inject_Z z)).
Proof.
  intros [Hz0 Hz].
  change (PyFloat.decimal z 0) with ((z * 1)%Z # 1). rewrite Z.mul_1_r.
  unfold PyFloat.round64.
  change (Qnum (z # 1)) with z. change (Z.pos (Qden (z # 1))) with 1%Z.
  destruct (Z.leb_spec z 0) as [Hle | Hpos].
  { by replace z with 0%Z by lia. }
  set (k := (52 - Z.log2 z)%Z).
  assert (0 ≤ Z.log2 z < 53)%Z as HL.
  { split; [apply Z.log2_nonneg |]. by apply Z.log2_lt_pow2. }
  assert (0 ≤ k ≤ 52)%Z as Hk by (unfold k; lia).
  assert (0 < 2 ^ k)%Z as Hpow by (apply Z.pow_pos_nonneg; lia).
  assert (2 ^ 52 ≤ z * 2 ^ k)%Z as Hscaled.
  { replace 52%Z with (Z.log2 z + k)%Z at 1 by (unfold k; lia).
    rewrite Z.pow_add_r by lia.
    apply Z.mul_le_mono_nonneg_r; [lia |]. by apply Z.log2_spec. }
  assert (PyFloat.binade z 1 = (- k)%Z) as Hb.
  { unfold PyFloat.binade. change (Z.log2 1) with 0%Z.
    replace (Z.log2 z - 0 - 52)%Z with (- k)%Z by (unfold k; lia).
    rewrite Z.opp_involutive, (Z.max_r (- k) 0), (Z.max_l k 0) by lia.
    change (2 ^ 0)%Z with 1%Z. rewrite !Z.mul_1_r.
    destruct (Z.leb_spec (2 ^ 52) (z * 2 ^ k)); [done | lia]. }
  rewrite Hb, (Z.max_l (- k) (-1074)) by lia.
  rewrite Z.opp_involutive, (Z.max_r (- k) 0), (Z.max_l k 0) by lia.
  change (2 ^ 0)%Z with 1%Z. rewrite !Z.mul_1_r, round_half_even_unit.
  destruct (Z.leb_spec (2 ^ 1024 * 2 ^ k) (z * 2 ^ k)) as [Hover | _].
  { apply Z.mul_le_mono_pos_r in Hover; [| done].
    assert (2 ^ 53 < 2 ^ 1024)%Z by (by apply Z.pow_lt_mono_r). lia. }
  f_equal. apply Q2Qc_eq_iff. rewrite Qred_correct.
  unfold Qeq. simpl. rewrite Z2Pos.id by done. lia.
Qed.

Lemma of_string_digits s :
  digits (list_ascii_of_string s) → s ≠ "" →
  (PyFloat.digits_to_Z (list_ascii_of_string s) < 2 ^ 53)%Z →
  PyFloat.of_string s =
    Some (Num (Q2Qc (inject_Z (PyFloat.digits_to_Z (list_ascii_of_string s))))).
Proof.
  intros Hl Hne Hsmall. unfold PyFloat.of_string.
  rewrite digits_to_ascii by done.
  rewrite drop_underscores_digits by done. simpl.
  rewrite strip_digits by done.
  destruct (list_ascii_of_string s) as [| c l] eqn:Hs.
  { destruct s; [done | discriminate]. }
  assert (PyFloat.is_digit c = true) as Hc by (by inversion Hl).
  rewrite take_sign_digit by done.
  rewrite !is_word_digit by done. simpl.
  rewrite parse_finite_digits by done. simpl.
  rewrite round64_integer; [done |]. split; [| done].
  by apply digits_to_Z_nonneg.
Qed.

Lemma pretty_N_char_digit d : PyFloat.is_digit (pretty_N_char d) = true.
Proof.
  destruct d as [| p]; [done |].
  do 4 (destruct p as [p | p |]; try done).
Qed.

Lemma pretty_N_char_value d :
  (d < 10)%N → (Z.of_nat (PyFloat.code (pretty_N_char d)) - 48)%Z = Z.of_N d.
Proof.
  intros Hd.
  assert (d = 0 ∨ d = 1 ∨ d = 2 ∨ d = 3 ∨ d = 4 ∨ d = 5 ∨ d = 6 ∨ d = 7
          ∨ d = 8 ∨ d = 9)%N as H by lia.
  repeat (destruct H as [-> | H]; [reflexivity |]). by subst.
Qed.

Lemma pretty_N_go_value x s :
  digits (list_ascii_of_string s) →
  digits (list_ascii_of_string (pretty_N_go x s)) ∧
  PyFloat.digits_to_Z (list_ascii_of_string (pretty_N_go x s))
  = (Z.of_N x * 10 ^ Z.of_nat (length (list_ascii_of_string s))
     + PyFloat.digits_to_Z (list_ascii_of_string s))%Z.
Proof.
  revert s. induction (N.lt_wf_0 x) as [x _ IH]. intros s Hs.
  destruct (decide (x = 0)%N) as [-> | Hx].
  - rewrite pretty_N_go_0. split; [done |].
    change (Z.of_N 0) with 0%Z. by rewrite Z.mul_0_l.
  - rewrite pretty_N_go_step by lia.
    destruct (IH (x `div` 10)%N) with (s := String (pretty_N_char (x `mod` 10)) s)
      as [Hd Hv].
    + apply N.div_lt; lia.
    + constructor; [apply pretty_N_char_digit | done].
    + split; [done |]. rewrite Hv.
      change (list_ascii_of_string (String ?c s)) with (c :: list_ascii_of_string s).
      rewrite digits_to_Z_cons, pretty_N_char_value by (apply N.mod_lt; lia).
      cbn [length]. rewrite Nat2Z.inj_succ, Z.pow_succ_r by lia.
      rewrite (N.div_mod x 10) at 3 by lia.
      rewrite N2Z.inj_add, N2Z.inj_mul. change (Z.of_N 10) with 10%Z. lia.
Qed.

Lemma pretty_N_digits (n : N) :
  pretty n ≠ "" ∧
  digits (list_ascii_of_string (pretty n)) ∧
  PyFloat.digits_to_Z (list_ascii_of_string (pretty n)) = Z.of_N n.
Proof.
  unfold pretty, pretty_N. case_decide as Hn.
  - subst. repeat split; [done |]. by repeat constructor.
  - destruct (pretty_N_go_value n "") as [Hd Hv]; [constructor |].
    change (length (list_ascii_of_string "")) with 0 in Hv.
    change (PyFloat.digits_to_Z (list_ascii_of_string "")) with 0%Z in Hv.
    change (Z.of_nat 0) with 0%Z in Hv. rewrite Z.pow_0_r in Hv.
    repeat split; [| done | lia].
    intros He. rewrite He in Hv.
    change (PyFloat.digits_to_Z (list_ascii_of_string "")) with 0%Z in Hv. lia.
Qed.

(** [float] reads the decimal numeral of a natural number below [2^53]
    as that number. *)
Lemma of_string_pretty (n : N) :
  (n < 2 ^ 53)%N →
  PyFloat.of_string (pretty n) = Some (Num (Q2Qc (inject_Z (Z.of_N n)))).
Proof.
  intros Hn. destruct (pretty_N_digits n) as (Hne & Hd & Hv).
  rewrite of_string_digits, Hv; [done.. |].
  rewrite Hv. change (2 ^ 53)%Z with (Z.of_N (2 ^ 53)). lia.
Qed.

(** X7: an age written as the decimal numeral of a natural number [n]
    below [2^53] is the number [n] in the prepared dataset. *)
Theorem age_decimal_numeral gss clean k r (n : N) :
  (n < 2 ^ 53)%N →
  prepare gss = Ok clean →
  records gss !! k = Some r →
  Frame.field gss "age" r = Str (pretty n) →
  ∃ r', records clean !! k = Some r' ∧
        Frame.field clean "age" r' = Num (Q2Qc (inject_Z (Z.of_N n))).
Proof.
  intros Hn Hp Hr Hage.
  destruct (prepare_ages _ _ _ _ Hp Hr) as (r' & Hr' & Hc).
  exists r'. split; [done |].
  rewrite Hage in Hc. unfold coerce_age in Hc.
  change (Frame.replace_cell age_replacements (Str (pretty n)))
    with (Str (PyDict.get age_replacements (pretty n) (pretty n))) in Hc.
  rewrite age_replacement_other in Hc.
  - unfold Frame.to_float in Hc. rewrite of_string_pretty in Hc by done.
    by injection Hc as <-.
  - intros He. pose proof (of_string_pretty n Hn) as Hs. rewrite He in Hs.
    assert (PyFloat.of_string "89 or older" = None) as Hnone
      by (vm_compute; reflexivity).
    congruence.
Qed.

Lemma age_decimal_numeral_witness :
  ∃ r', records (gss_clean Sample.globals) !! 4 = Some r' ∧
        Frame.field (gss_clean Sample.globals) "age" r'
          = Num (Q2Qc (inject_Z (Z.of_N 67))).
Proof.
  apply (age_decimal_numeral Sample.gss (gss_clean Sample.globals) 4
           (Sample.respondent 5 "female" (Sample.n 16) "pacific"
              (Str "67") (Str "very satisfied") (Str "agree")) 67%N);
    vm_compute; reflexivity.
Defined.

(** ** The rows of the frequency table *)

Lemma getitem_pair_typed df a b :
  a ∈ Frame.names df → b ∈ Frame.names df →
  Frame.getitem_list df [a; b] =
    Ok {| columns := [(a, Px.column_dtype df a); (b, Px.column_dtype df b)];
          records := (λ r, [Frame.field df a r; Frame.field df b r]) <$> records df |}.
Proof.
  intros [i Hi]%position_is_Some [j Hj]%position_is_Some.
  pose proof (position_lookup _ _ _ Hi) as Hli.
  pose proof (position_lookup _ _ _ Hj) as Hlj.
  unfold Frame.names in Hli, Hlj. rewrite list_lookup_fmap in Hli, Hlj.
  destruct (columns df !! i) as [[a' ta] |] eqn:Hci; simplify_eq/=.
  destruct (columns df !! j) as [[b' tb] |] eqn:Hcj; simplify_eq/=.
  unfold Frame.getitem_list, Px.column_dtype.
  rewrite !filter_cons, filter_nil, Hi, Hj. simpl.
  rewrite Hi, Hj. simpl. rewrite Hci, Hcj. simpl.
  do 2 f_equal. apply list_fmap_ext. intros _ r _. unfold Frame.field.
  by rewrite Hi, Hj.
Qed.

(** Line 315 written out. *)
Lemma bars_table g a b :
  a ∈ Frame.names (gss_clean g) →
  b ∈ Frame.names (gss_clean g) →
  a ≠ b →
  bars a b g =
    (Ok {| columns := [(a, Px.column_dtype (gss_clean g) a);
                       (b, Px.column_dtype (gss_clean g) b);
                       ("count", int64)];
           records :=
             table_row <$>
             Counts.sort_values
               ((λ k, (k, Counts.occurrences k (complete_pairs (gss_clean g) a b)))
                <$> merge_sort (λ u v, Counts.key_leb u v)
                      (remove_dups (complete_pairs (gss_clean g) a b))) |}, g).
Proof.
  intros Ha Hb Hab.
  unfold bars, read_gss_clean, lift, mbind, App_bind, mret, App_ret.
  rewrite (getitem_pair_typed _ _ _ Ha Hb).
  unfold Counts.value_counts, Frame.names. simpl.
  rewrite decide_True.
  - rewrite complete_selection. reflexivity.
  - apply NoDup_cons. split; [| apply NoDup_singleton].
    by intros ->%list_elem_of_singleton.
Qed.

Lemma table_rows_Permutation (cp : list (list cell)) :
  table_row <$>
    Counts.sort_values
      ((λ k, (k, Counts.occurrences k cp))
       <$> merge_sort (λ u v, Counts.key_leb u v) (remove_dups cp))
  ≡ₚ (λ k, k ++ [Counts.of_nat (Counts.occurrences k cp)]) <$> remove_dups cp.
Proof.
  rewrite sort_values_Permutation, <- list_fmap_compose.
  by rewrite merge_sort_Permutation.
Qed.

Lemma occurrences_complete_pairs df a b x y :
  notna x → notna y →
  Counts.occurrences [x; y] (complete_pairs df a b) = pair_count df a b x y.
Proof.
  intros Hx Hy. unfold Counts.occurrences, complete_pairs, complete_records, pair_count.
  rewrite filter_fmap, length_fmap, list_filter_filter. f_equal.
  apply list_filter_iff. intros r. simpl. split.
  - by intros [[= -> ->] _].
  - by intros [-> ->].
Qed.

Lemma elem_of_complete_pairs df a b k :
  k ∈ complete_pairs df a b ↔
  ∃ x y, k = [x; y] ∧ notna x ∧ notna y ∧ 0 < pair_count df a b x y.
Proof.
  unfold complete_pairs, complete_records. rewrite list_elem_of_fmap. split.
  - intros (r & -> & [[Hx Hy] Hr]%list_elem_of_filter).
    eexists _, _. repeat split; [done.. |].
    unfold pair_count.
    assert (r ∈ filter (λ r', Frame.field df a r' = Frame.field df a r
                              ∧ Frame.field df b r' = Frame.field df b r) (records df))
      as Hin by (by apply list_elem_of_filter).
    destruct (filter _ (records df)); [by apply elem_of_nil in Hin | simpl; lia].
  - intros (x & y & -> & Hx & Hy & Hn). unfold pair_count in Hn.
    destruct (filter _ (records df)) as [| r l] eqn:Hf; [simpl in Hn; lia |].
    assert (r ∈ r :: l) as Hin by left. rewrite <- Hf in Hin.
    apply list_elem_of_filter in Hin as [[<- <-] Hr].
    exists r. split; [done |]. by apply list_elem_of_filter.
Qed.

(** X8: on the prepared dataset, for every offered category and
    question, the frequency table has no two equal rows, and its rows are
    exactly the triples of a category value [x], a response [y] and the
    number of records holding both, for every pair of present values that
    at least one record holds: one row per observed combination, none
    with a zero count or a missing value. *)
Theorem bars_rows gss g category question :
  prepare gss = Ok (gss_clean g) →
  valid_category category →
  valid_question question →
  ∃ table,
    bars category question g = (Ok table, g) ∧
    NoDup (records table) ∧
    ∀ row, row ∈ records table ↔
      ∃ x y, row = [x; y; Counts.of_nat (pair_count (gss_clean g) category question x y)]
             ∧ notna x ∧ notna y
             ∧ 0 < pair_count (gss_clean g) category question x y.
Proof.
  intros Hp Hc Hq.
  destruct (offered_selection _ _ _ _ Hp Hc Hq) as (Hcc & Hqc & Hne & _ & _).
  eexists. split; [by apply bars_table |]. simpl.
  split.
  - rewrite table_rows_Permutation. apply NoDup_fmap_2_strong; [| apply NoDup_remove_dups].
    intros u v _ _ H. by apply app_inj_2 in H as [? _].
  - intros row. rewrite table_rows_Permutation, list_elem_of_fmap. split.
    + intros (k & -> & Hk). rewrite elem_of_remove_dups in Hk.
      apply elem_of_complete_pairs in Hk as (x & y & -> & Hx & Hy & Hn).
      exists x, y. by rewrite occurrences_complete_pairs.
    + intros (x & y & -> & Hx & Hy & Hn). exists [x; y]. split.
      * by rewrite occurrences_complete_pairs.
      * rewrite elem_of_remove_dups. apply elem_of_complete_pairs. by exists x, y.
Qed.

Lemma bars_rows_witness :
  ∃ table,
    bars "sex" "satjob" Sample.globals = (Ok table, Sample.globals) ∧
    NoDup (records table) ∧
    ∀ row, row ∈ records table ↔
      ∃ x y, row = [x; y; Counts.of_nat
                            (pair_count (gss_clean Sample.globals) "sex" "satjob" x y)]
             ∧ notna x ∧ notna y
             ∧ 0 < pair_count (gss_clean Sample.globals) "sex" "satjob" x y.
Proof.
  apply (bars_rows Sample.gss Sample.globals "sex" "satjob");
    [vm_compute; reflexivity | offered | offered].
Defined.

(** The cells of a row of the frequency table. *)
Lemma field_count a ta b tb rs x y c :
  a ≠ "count" → b ≠ "count" →
  Frame.field {| columns := [(a, ta); (b, tb); ("count", int64)]; records := rs |}
              "count" [x; y; c] = c.
Proof.
  intros Ha Hb. unfold Frame.field, Frame.names. simpl.
  rewrite decide_False by done. simpl. by rewrite decide_False by done.
Qed.

Lemma field_category a ta b tb rs x y c :
  Frame.field {| columns := [(a, ta); (b, tb); ("count", int64)]; records := rs |}
              a [x; y; c] = x.
Proof. unfold Frame.field, Frame.names. simpl. by rewrite decide_True by done. Qed.

Lemma field_question a ta b tb rs x y c :
  a ≠ b →
  Frame.field {| columns := [(a, ta); (b, tb); ("count", int64)]; records := rs |}
              b [x; y; c] = y.
Proof.
  intros Hab. unfold Frame.field, Frame.names. simpl.
  rewrite decide_False by done. simpl. by rewrite decide_True by done.
Qed.

Lemma bar_height_of_nat n : bar_height (Counts.of_nat n) = n.
Proof. unfold bar_height. rewrite to_Z_of_nat. apply Nat2Z.id. Qed.

Lemma sizes_keys (cp : list (list cell)) :
  Forall (λ g, g.1 ∈ cp)
    (Counts.sort_values
       ((λ k, (k, Counts.occurrences k cp))
        <$> merge_sort (λ u v, Counts.key_leb u v) (remove_dups cp))).
Proof.
  rewrite sort_values_Permutation. apply Forall_fmap, Forall_forall.
  intros k Hk. simpl. rewrite merge_sort_Permutation in Hk.
  by rewrite elem_of_remove_dups in Hk.
Qed.

Lemma complete_pairs_shape df a b k :
  k ∈ complete_pairs df a b →
  ∃ x y, k = [x; y] ∧ notna x ∧ notna y.
Proof.
  intros (x & y & -> & Hx & Hy & _)%elem_of_complete_pairs. by exists x, y.
Qed.

(** X9: on the prepared dataset, for every offered category and
    question, the counts of the frequency table never increase from one
    row to any later row. *)
Theorem bars_sorted_by_count gss g category question :
  prepare gss = Ok (gss_clean g) →
  valid_category category →
  valid_question question →
  ∃ table,
    bars category question g = (Ok table, g) ∧
    StronglySorted (λ m n, n ≤ m) (count_column table).
Proof.
  intros Hp Hc Hq.
  destruct (offered_selection _ _ _ _ Hp Hc Hq) as (Hcc & Hqc & Hne & Hc' & Hq').
  eexists. split; [by apply bars_table |].
  unfold count_column. simpl. rewrite <- list_fmap_compose.
  set (sizes := Counts.sort_values _).
  assert (StronglySorted Counts.larger_first sizes) as Hsorted
    by apply sort_values_sorted.
  rewrite (Forall_fmap_ext_1 _ snd).
  - by apply (StronglySorted_fmap snd Counts.larger_first).
  - eapply Forall_impl; [apply sizes_keys |].
    intros [k n] Hk. simpl in Hk.
    apply complete_pairs_shape in Hk as (x & y & -> & _). simpl.
    unfold table_row. simpl. rewrite field_count by done.
    apply bar_height_of_nat.
Qed.

Lemma bars_sorted_by_count_witness :
  ∃ table,
    bars "sex" "satjob" Sample.globals = (Ok table, Sample.globals) ∧
    StronglySorted (λ m n, n ≤ m) (count_column table).
Proof.
  apply (bars_sorted_by_count Sample.gss Sample.globals "sex" "satjob");
    [vm_compute; reflexivity | offered | offered].
Defined.

(** ** The traces of the chart *)

Lemma unique_elem_of l x : x ∈ Px.unique l ↔ x ∈ l.
Proof.
  induction l as [| c l IH]; simpl; [done |].
  rewrite !elem_of_cons, list_elem_of_filter, IH.
  destruct (decide (x = c)); intuition congruence.
Qed.

Lemma unique_NoDup l : NoDup (Px.unique l).
Proof.
  induction l as [| c l IH]; simpl; [constructor |].
  apply NoDup_cons. split.
  - rewrite list_elem_of_filter. by intros [? _].
  - by apply NoDup_filter.
Qed.

Lemma sum_filter_split {A} (w : A → nat) (P Q R : A → Prop)
    `{∀ x, Decision (P x)} `{∀ x, Decision (Q x)} `{∀ x, Decision (R x)}
    (l : list A) :
  (∀ x, R x ↔ P x ∨ Q x) →
  (∀ x, P x → Q x → False) →
  sum_list_with w (filter P l) + sum_list_with w (filter Q l)
  = sum_list_with w (filter R l).
Proof.
  intros HR Hdis. induction l as [| a l IH]; [done |].
  rewrite !filter_cons.
  pose proof (HR a). pose proof (Hdis a).
  repeat case_decide; simpl; try lia; tauto.
Qed.

(** Groups over distinct values split the records that have one of them. *)
Lemma sum_groups {A} (col : A → cell) (w : A → nat) (vs : list cell) (l : list A) :
  NoDup vs →
  sum_list_with (λ v, sum_list_with w (filter (λ r, col r = v) l)) vs
  = sum_list_with w (filter (λ r, col r ∈ vs) l).
Proof.
  induction 1 as [| v vs Hv Hnd IH]; simpl.
  - induction l as [| a l IHl]; [done |].
    rewrite filter_cons. case_decide as Hin; [by apply elem_of_nil in Hin | done].
  - rewrite IH. apply sum_filter_split.
    + intros r. rewrite elem_of_cons. naive_solver.
    + intros r -> Hin. done.
Qed.

(** With a colour column that is not numeric and has no missing value,
    there is one trace per distinct colour value, made of the records that
    have it. *)
Lemma traces_discrete df x y color :
  is_numeric (Px.column_dtype df color) = false →
  Forall (λ r, notna (Frame.field df color r)) (records df) →
  Px.traces df x y color =
    (λ v, Px.trace_of df x y v
            (filter (λ r, Frame.field df color r = v) (records df)))
    <$> Px.unique (Frame.field df color <$> records df).
Proof.
  intros Hdt Hna. unfold Px.traces. rewrite Hdt.
  assert (∀ v, v ∈ Px.unique (Frame.field df color <$> records df) → notna v) as Hv.
  { intros v [r [-> Hr]]%unique_elem_of%list_elem_of_fmap.
    by apply (proj1 (Forall_forall _ _) Hna). }
  destruct (Px.unique _) as [| v [| v' vs]] eqn:Hu.
  - done.
  - simpl. do 2 f_equal. symmetry. apply filter_all. intros r Hr.
    assert (Frame.field df color r ∈ [v]) as Hin.
    { rewrite <- Hu. apply unique_elem_of, list_elem_of_fmap. by exists r. }
    by apply list_elem_of_singleton in Hin.
  - f_equal. apply filter_all. done.
Qed.

Lemma sum_list_with_const {A} (l : list A) : sum_list_with (λ _, 1) l = length l.
Proof. induction l as [| a l IH]; simpl; [done | by rewrite IH]. Qed.

(** Every record with a colour value is drawn exactly once. *)
Lemma traces_weight df x y color (h : cell → nat) :
  Forall (λ r, notna (Frame.field df color r)) (records df) →
  sum_list_with (λ t, sum_list_with h (Px.y t)) (Px.traces df x y color)
  = sum_list_with (λ r, h (Frame.field df y r)) (records df).
Proof.
  intros Hna.
  destruct (is_numeric (Px.column_dtype df color)) eqn:Hdt.
  - unfold Px.traces. rewrite Hdt. simpl. rewrite Nat.add_0_r.
    apply sum_list_with_fmap.
  - rewrite traces_discrete by done. rewrite sum_list_with_fmap. simpl.
    rewrite (sum_list_with_ext _
               (λ v, sum_list_with (λ r, h (Frame.field df y r))
                       (filter (λ r, Frame.field df color r = v) (records df)))).
    + rewrite sum_groups by apply unique_NoDup. f_equal.
      apply filter_all. intros r Hr.
      apply unique_elem_of, list_elem_of_fmap. by exists r.
    + apply Forall_forall. intros v _. simpl. by rewrite sum_list_with_fmap.
Qed.

(** ** The chart and the frequency table *)

(** The rows of the frequency table of the columns [a] and [b] of [df]. *)
Lemma table_rows_spec df a b row :
  row ∈ table_row <$>
          Counts.sort_values
            ((λ k, (k, Counts.occurrences k (complete_pairs df a b)))
             <$> merge_sort (λ u v, Counts.key_leb u v)
                   (remove_dups (complete_pairs df a b)))
  ↔ ∃ x y, row = [x; y; Counts.of_nat (pair_count df a b x y)]
           ∧ notna x ∧ notna y ∧ 0 < pair_count df a b x y.
Proof.
  rewrite table_rows_Permutation, list_elem_of_fmap. split.
  - intros (k & -> & Hk). rewrite elem_of_remove_dups in Hk.
    apply elem_of_complete_pairs in Hk as (x & y & -> & Hx & Hy & Hn).
    exists x, y. by rewrite occurrences_complete_pairs.
  - intros (x & y & -> & Hx & Hy & Hn). exists [x; y]. split.
    + by rewrite occurrences_complete_pairs.
    + rewrite elem_of_remove_dups. apply elem_of_complete_pairs. by exists x, y.
Qed.

Lemma table_rows_NoDup (cp : list (list cell)) :
  NoDup (table_row <$>
           Counts.sort_values
             ((λ k, (k, Counts.occurrences k cp))
              <$> merge_sort (λ u v, Counts.key_leb u v) (remove_dups cp))).
Proof.
  rewrite table_rows_Permutation.
  apply NoDup_fmap_2_strong; [| apply NoDup_remove_dups].
  intros u v _ _ H. by apply app_inj_2 in H as [? _].
Qed.

(** [user_bar] written out: the chart is drawn from the frequency table. *)
Lemma user_bar_chart g a b :
  a ∈ Frame.names (gss_clean g) →
  b ∈ Frame.names (gss_clean g) →
  a ≠ b →
  ∃ table fig,
    bars a b g = (Ok table, g) ∧
    user_bar a b g = (Ok fig, g) ∧
    Px.data fig = Px.traces table a "count" b ∧
    table =
      {| columns := [(a, Px.column_dtype (gss_clean g) a);
                     (b, Px.column_dtype (gss_clean g) b);
                     ("count", int64)];
         records :=
           table_row <$>
           Counts.sort_values
             ((λ k, (k, Counts.occurrences k (complete_pairs (gss_clean g) a b)))
              <$> merge_sort (λ u v, Counts.key_leb u v)
                    (remove_dups (complete_pairs (gss_clean g) a b))) |}.
Proof.
  intros Ha Hb Hab.
  destruct (user_bar_run g a b Ha Hb Hab) as (table & fig & Hbars & Hfig & Hdata).
  exists table, fig. repeat split; [done.. |].
  rewrite (bars_table g a b Ha Hb Hab) in Hbars. by injection Hbars as <-.
Qed.

Lemma table_colours_present df a ta b tb rs :
  a ≠ b →
  Forall (λ r, notna (Frame.field
                        {| columns := [(a, ta); (b, tb); ("count", int64)];
                           records := rs |} b r))
    (table_row <$>
       Counts.sort_values
         ((λ k, (k, Counts.occurrences k (complete_pairs df a b)))
          <$> merge_sort (λ u v, Counts.key_leb u v)
                (remove_dups (complete_pairs df a b)))).
Proof.
  intros Hab. apply Forall_forall. intros row Hrow.
  apply table_rows_spec in Hrow as (x & y & -> & _ & Hy & _).
  by rewrite field_question.
Qed.

(** X10: on the prepared dataset, for every offered category and
    question, the heights of the bars of the chart [user_bar] returns add
    up to the number of records that have both values: grouping the
    frequency table into colour traces loses and repeats no row. *)
Theorem chart_shows_every_complete_record gss g category question :
  prepare gss = Ok (gss_clean g) →
  valid_category category →
  valid_question question →
  ∃ fig,
    user_bar category question g = (Ok fig, g) ∧
    chart_total fig = length (complete_records (gss_clean g) category question).
Proof.
  intros Hp Hc Hq.
  destruct (offered_selection _ _ _ _ Hp Hc Hq) as (Hcc & Hqc & Hne & Hc' & Hq').
  destruct (user_bar_chart g category question Hcc Hqc Hne)
    as (table & fig & Hbars & Hfig & Hdata & Htable).
  destruct (bars_total g category question Hcc Hqc Hne)
    as (table' & Hbars' & Htotal & _); [done.. |].
  rewrite Hbars in Hbars'. injection Hbars' as <-.
  exists fig. split; [done |].
  rewrite <- Htotal. unfold chart_total, count_total. rewrite Hdata.
  apply traces_weight. subst table. by apply table_colours_present.
Qed.

Lemma chart_shows_every_complete_record_witness :
  ∃ fig,
    user_bar "education" "male_breadwinner" Sample.globals = (Ok fig, Sample.globals) ∧
    chart_total fig =
      length (complete_records (gss_clean Sample.globals) "education" "male_breadwinner").
Proof.
  apply (chart_shows_every_complete_record Sample.gss Sample.globals
           "education" "male_breadwinner");
    [vm_compute; reflexivity | offered | offered].
Defined.

Lemma bars_of_traces (ts : list Px.Trace) :
  sum_list ((λ t, length (Px.y t)) <$> ts)
  = sum_list_with (λ t, sum_list_with (λ _, 1) (Px.y t)) ts.
Proof.
  induction ts as [| t ts IH]; [done |].
  csimpl. by rewrite IH, sum_list_with_const.
Qed.

(** X11: on the prepared dataset, for every offered category and
    question, the chart has exactly one bar for each distinct pair of a
    category value and a response that some record holds. *)
Theorem chart_one_bar_per_combination gss g category question :
  prepare gss = Ok (gss_clean g) →
  valid_category category →
  valid_question question →
  ∃ fig,
    user_bar category question g = (Ok fig, g) ∧
    Px.bar_count fig =
      length (remove_dups (complete_pairs (gss_clean g) category question)).
Proof.
  intros Hp Hc Hq.
  destruct (offered_selection _ _ _ _ Hp Hc Hq) as (Hcc & Hqc & Hne & Hc' & Hq').
  destruct (user_bar_chart g category question Hcc Hqc Hne)
    as (table & fig & Hbars & Hfig & Hdata & Htable).
  exists fig. split; [done |].
  unfold Px.bar_count. rewrite Hdata.
  transitivity (sum_list_with (λ t, sum_list_with (λ _, 1) (Px.y t))
                  (Px.traces table category "count" question)).
  { apply bars_of_traces. }
  rewrite traces_weight
    by (subst table; by apply table_colours_present).
  rewrite sum_list_with_const. subst table. simpl.
  by rewrite table_rows_Permutation, length_fmap.
Qed.

Lemma chart_one_bar_per_combination_witness :
  ∃ fig,
    user_bar "sex" "satjob" Sample.globals = (Ok fig, Sample.globals) ∧
    Px.bar_count fig =
      length (remove_dups (complete_pairs (gss_clean Sample.globals) "sex" "satjob")).
Proof.
  apply (chart_one_bar_per_combination Sample.gss Sample.globals "sex" "satjob");
    [vm_compute; reflexivity | offered | offered].
Defined.

(** ** One trace per response *)

Lemma table_question_dtype df a b ta rs :
  a ≠ b →
  Px.column_dtype
    {| columns := [(a, ta); (b, Px.column_dtype df b); ("count", int64)];
       records := rs |} b
  = Px.column_dtype df b.
Proof.
  intros Hab. unfold Px.column_dtype at 1. unfold Frame.names. simpl.
  rewrite decide_False by done. simpl. by rewrite decide_True by done.
Qed.

(** The traces of [user_bar] when the question column holds strings. *)
Lemma user_bar_traces g a b :
  a ∈ Frame.names (gss_clean g) →
  b ∈ Frame.names (gss_clean g) →
  a ≠ b →
  Px.column_dtype (gss_clean g) b = object →
  ∃ table fig,
    bars a b g = (Ok table, g) ∧
    user_bar a b g = (Ok fig, g) ∧
    NoDup (records table) ∧
    (∀ row, row ∈ records table ↔
       ∃ x y, row = [x; y; Counts.of_nat (pair_count (gss_clean g) a b x y)]
              ∧ notna x ∧ notna y ∧ 0 < pair_count (gss_clean g) a b x y) ∧
    (∀ x y c, Frame.field table a [x; y; c] = x ∧ Frame.field table b [x; y; c] = y) ∧
    Px.data fig =
      (λ v, Px.trace_of table a "count" v
              (filter (λ r, Frame.field table b r = v) (records table)))
      <$> Px.unique (Frame.field table b <$> records table).
Proof.
  intros Ha Hb Hab Hdt.
  destruct (user_bar_chart g a b Ha Hb Hab)
    as (table & fig & Hbars & Hfig & Hdata & Htable).
  exists table, fig. split; [done |]. split; [done |].
  rewrite Hdata. subst table. simpl. split; [apply table_rows_NoDup |].
  split; [apply table_rows_spec |]. split.
  - intros x y c. by rewrite field_category, field_question.
  - apply traces_discrete.
    + by rewrite table_question_dtype, Hdt.
    + by apply table_colours_present.
Qed.

(** X12: on the prepared dataset, for every offered category and a
    question whose column holds strings, the chart has one trace per
    response: the trace names are the distinct responses of the frequency
    table in order of first appearance, no name occurs twice, a value
    names a trace exactly when some record with both values holds it as
    its response, and no trace is without bars. *)
Theorem chart_one_trace_per_response gss g category question :
  prepare gss = Ok (gss_clean g) →
  valid_category category →
  valid_question question →
  Px.column_dtype (gss_clean g) question = object →
  ∃ table fig,
    bars category question g = (Ok table, g) ∧
    user_bar category question g = (Ok fig, g) ∧
    Px.name <$> Px.data fig
      = Some <$> Px.unique (Frame.field table question <$> records table) ∧
    NoDup (Px.name <$> Px.data fig) ∧
    (∀ v, Some v ∈ Px.name <$> Px.data fig ↔
          ∃ r, r ∈ complete_records (gss_clean g) category question
               ∧ Frame.field (gss_clean g) question r = v) ∧
    Forall (λ t, Px.y t ≠ []) (Px.data fig).
Proof.
  intros Hp Hc Hq Hdt.
  destruct (offered_selection _ _ _ _ Hp Hc Hq) as (Hcc & Hqc & Hne & _ & _).
  destruct (user_bar_traces g category question Hcc Hqc Hne Hdt)
    as (table & fig & Hbars & Hfig & Hnd & Hrows & Hfield & Hdata).
  exists table, fig. split; [done |]. split; [done |].
  assert (Px.name <$> Px.data fig
          = Some <$> Px.unique (Frame.field table question <$> records table))
    as Hnames.
  { rewrite Hdata, <- list_fmap_compose. by apply list_fmap_ext. }
  split; [done |]. split; [| split].
  - rewrite Hnames. apply NoDup_fmap; [apply _ | apply unique_NoDup].
  - intros v. rewrite Hnames. rewrite list_elem_of_fmap. split.
    + intros (v' & [= <-] & Hv). rewrite unique_elem_of, list_elem_of_fmap in Hv.
      destruct Hv as (row & -> & Hrow).
      apply Hrows in Hrow as (x & y & -> & Hx & Hy & Hn).
      destruct (Hfield x y (Counts.of_nat (pair_count (gss_clean g) category question x y)))
        as [_ ->].
      assert ([x; y] ∈ complete_pairs (gss_clean g) category question) as Hin
        by (apply elem_of_complete_pairs; by exists x, y).
      apply list_elem_of_fmap in Hin as (r & [= -> ->] & Hr). by exists r.
    + intros (r & Hr & <-). eexists. split; [done |].
      rewrite unique_elem_of, list_elem_of_fmap.
      assert ([Frame.field (gss_clean g) category r; Frame.field (gss_clean g) question r]
              ∈ complete_pairs (gss_clean g) category question) as Hin
        by (apply list_elem_of_fmap; by exists r).
      apply elem_of_complete_pairs in Hin as (x & y & [= <- <-] & Hx & Hy & Hn).
      set (x := Frame.field (gss_clean g) category r) in *.
      set (y := Frame.field (gss_clean g) question r) in *.
      exists [x; y; Counts.of_nat (pair_count (gss_clean g) category question x y)].
      split; [| apply Hrows; by exists x, y].
      by destruct (Hfield x y (Counts.of_nat (pair_count (gss_clean g) category question x y)))
        as [_ ->].
  - rewrite Hdata. apply Forall_fmap, Forall_forall. intros v Hv. simpl.
    rewrite unique_elem_of, list_elem_of_fmap in Hv. destruct Hv as (row & -> & Hrow).
    intros Hempty. apply fmap_nil_inv in Hempty.
    assert (row ∈ filter (λ r, Frame.field table question r
                               = Frame.field table question row) (records table))
      as Hin by (by apply list_elem_of_filter).
    rewrite Hempty in Hin. by apply elem_of_nil in Hin.
Qed.

Lemma chart_one_trace_per_response_witness :
  ∃ table fig,
    bars "sex" "satjob" Sample.globals = (Ok table, Sample.globals) ∧
    user_bar "sex" "satjob" Sample.globals = (Ok fig, Sample.globals) ∧
    Px.name <$> Px.data fig
      = Some <$> Px.unique (Frame.field table "satjob" <$> records table) ∧
    NoDup (Px.name <$> Px.data fig) ∧
    (∀ v, Some v ∈ Px.name <$> Px.data fig ↔
          ∃ r, r ∈ complete_records (gss_clean Sample.globals) "sex" "satjob"
               ∧ Frame.field (gss_clean Sample.globals) "satjob" r = v) ∧
    Forall (λ t, Px.y t ≠ []) (Px.data fig).
Proof.
  apply (chart_one_trace_per_response Sample.gss Sample.globals "sex" "satjob");
    [vm_compute; reflexivity | offered | offered | vm_compute; reflexivity].
Defined.

(** X13: on the prepared dataset, for every offered category and a
    question whose column holds strings, no trace of the chart has two
    bars at the same category value, and every trace has as many heights
    as positions. *)
Theorem chart_trace_categories_distinct gss g category question :
  prepare gss = Ok (gss_clean g) →
  valid_category category →
  valid_question question →
  Px.column_dtype (gss_clean g) question = object →
  ∃ fig,
    user_bar category question g = (Ok fig, g) ∧
    Forall (λ t, NoDup (Px.x t) ∧ length (Px.x t) = length (Px.y t)) (Px.data fig).
Proof.
  intros Hp Hc Hq Hdt.
  destruct (offered_selection _ _ _ _ Hp Hc Hq) as (Hcc & Hqc & Hne & _ & _).
  destruct (user_bar_traces g category question Hcc Hqc Hne Hdt)
    as (table & fig & Hbars & Hfig & Hnd & Hrows & Hfield & Hdata).
  exists fig. split; [done |].
  rewrite Hdata. apply Forall_fmap, Forall_forall. intros v _. simpl. split.
  - apply NoDup_fmap_2_strong; [| by apply NoDup_filter].
    intros r1 r2 [Hv1 Hr1]%list_elem_of_filter [Hv2 Hr2]%list_elem_of_filter Hx.
    apply Hrows in Hr1 as (x1 & y1 & -> & _).
    apply Hrows in Hr2 as (x2 & y2 & -> & _).
    destruct (Hfield x1 y1 (Counts.of_nat (pair_count (gss_clean g) category question x1 y1)))
      as [Ha1 Hb1].
    destruct (Hfield x2 y2 (Counts.of_nat (pair_count (gss_clean g) category question x2 y2)))
      as [Ha2 Hb2].
    rewrite Ha1, Ha2 in Hx. rewrite Hb1 in Hv1. rewrite Hb2 in Hv2. by subst.
  - by rewrite !length_fmap.
Qed.

Lemma chart_trace_categories_distinct_witness :
  ∃ fig,
    user_bar "region" "satjob" Sample.globals = (Ok fig, Sample.globals) ∧
    Forall (λ t, NoDup (Px.x t) ∧ length (Px.x t) = length (Px.y t)) (Px.data fig).
Proof.
  apply (chart_trace_categories_distinct Sample.gss Sample.globals "region" "satjob");
    [vm_compute; reflexivity | offered | offered | vm_compute; reflexivity].
Defined.

(** ** The layout of the chart *)

Lemma labels_offered_question question :
  valid_question question → PyDict.get user_bar_labels question question = "Response".
Proof. intros H. unfold valid_question in H. simpl in H. option_cases H; reflexivity. Qed.

(** With a colour column that is not numeric and has no missing value,
    no trace is drawn exactly when the frame has no record. *)
Lemma traces_nil df x y color :
  is_numeric (Px.column_dtype df color) = false →
  Forall (λ r, notna (Frame.field df color r)) (records df) →
  Px.traces df x y color = [] ↔ records df = [].
Proof.
  intros Hdt Hna. rewrite traces_discrete by done. split.
  - intros Hu%fmap_nil_inv. destruct (records df) as [| r rs] eqn:Hr; [done |].
    assert (Frame.field df color r ∈ Px.unique (Frame.field df color <$> r :: rs)) as Hin
      by (apply unique_elem_of, list_elem_of_fmap; exists r; split; [done | left]).
    rewrite Hu in Hin. by apply elem_of_nil in Hin.
  - by intros ->.
Qed.

(** The frequency table has no row exactly when no record has both
    values. *)
Lemma table_rows_nil df a b :
  table_row <$>
    Counts.sort_values
      ((λ k, (k, Counts.occurrences k (complete_pairs df a b)))
       <$> merge_sort (λ u v, Counts.key_leb u v)
             (remove_dups (complete_pairs df a b))) = []
  ↔ complete_records df a b = [].
Proof.
  split.
  - intros Hrows. destruct (complete_records df a b) as [| r rs] eqn:Hr; [done |].
    assert ([Frame.field df a r; Frame.field df b r] ∈ complete_pairs df a b) as Hin.
    { apply list_elem_of_fmap. exists r. split; [done |]. rewrite Hr. left. }
    apply elem_of_complete_pairs in Hin as (x & y & _ & Hx & Hy & Hn).
    assert ([x; y; Counts.of_nat (pair_count df a b x y)] ∈ @nil (list cell)) as Hnil.
    { rewrite <- Hrows. apply table_rows_spec. by exists x, y. }
    by apply elem_of_nil in Hnil.
  - intros Hr. destruct (table_row <$> _) as [| row rows] eqn:Hrows; [done |].
    assert (row ∈ row :: rows) as Hin by left. rewrite <- Hrows in Hin.
    apply table_rows_spec in Hin as (x & y & _ & Hx & Hy & Hn).
    assert ([x; y] ∈ complete_pairs df a b) as Hp
      by (apply elem_of_complete_pairs; by exists x, y).
    unfold complete_pairs in Hp. rewrite Hr in Hp. by apply elem_of_nil in Hp.
Qed.

(** X14: on the prepared dataset, for every offered category and
    question, the chart is grouped, 400 by 630, with the title of the
    category axis empty ([update_layout] overrides the one [px.bar] set),
    the other axis titled [Frequency] and the legend anchored at the top
    right at 0.95.  When the question column is numeric, [Response] is
    the title of the colour axis and the legend has no title; otherwise
    there is no colour axis title, and [Response] is the title of the
    legend when some record has both values and the legend has no title
    when none has. *)
Theorem user_bar_layout gss g category question :
  prepare gss = Ok (gss_clean g) →
  valid_category category →
  valid_question question →
  ∃ fig,
    user_bar category question g = (Ok fig, g) ∧
    Px.barmode fig = "group" ∧
    Px.height fig = 400%Z ∧ Px.width fig = 630%Z ∧
    Px.xaxis_title fig = "" ∧
    Px.yaxis_title fig = "Frequency" ∧
    Px.yanchor (Px.legend fig) = Some "top" ∧
    Px.xanchor (Px.legend fig) = Some "right" ∧
    Px.legend_y (Px.legend fig) = Some (Q2Qc (95 # 100)) ∧
    Px.legend_x (Px.legend fig) = Some (Q2Qc (95 # 100)) ∧
    (if is_numeric (Px.column_dtype (gss_clean g) question)
     then Px.coloraxis_title fig = Some "Response"
          ∧ Px.legend_title (Px.legend fig) = None
     else Px.coloraxis_title fig = None
          ∧ Px.legend_title (Px.legend fig) =
              match complete_records (gss_clean g) category question with
              | [] => None
              | _ :: _ => Some "Response"
              end).
Proof.
  intros Hp Hc Hq.
  destruct (offered_selection _ _ _ _ Hp Hc Hq) as (Hcc & Hqc & Hne & Hc' & Hq').
  eexists. split.
  - unfold user_bar, mbind, App_bind, lift, mret, App_ret.
    rewrite (bars_table g category question Hcc Hqc Hne).
    unfold Px.bar, Px.check_column, Frame.names. simpl.
    repeat (case_decide; try congruence; simpl).
    reflexivity.
  - cbn [Px.barmode Px.height Px.width Px.xaxis_title Px.yaxis_title Px.yanchor
         Px.xanchor Px.legend_y Px.legend_x Px.legend Px.legend_title
         Px.coloraxis_title Px.update_layout].
    rewrite table_question_dtype by done.
    rewrite (labels_offered_question question) by done.
    repeat (split; [reflexivity |]).
    destruct (is_numeric (Px.column_dtype (gss_clean g) question)) eqn:Hdt.
    + split; [done |]. by destruct (Px.traces _ _ _ _).
    + split; [done |].
      match goal with
      | |- context [Px.traces ?t _ _ _] =>
          pose proof (traces_nil t category "count" question) as Hnil
      end.
      rewrite table_question_dtype in Hnil by done.
      specialize (Hnil Hdt (table_colours_present _ _ _ _ _ _ Hne)).
      cbn [records] in Hnil. rewrite table_rows_nil in Hnil.
      destruct (Px.traces _ _ _ _) as [| t ts].
      * by rewrite (proj1 Hnil).
      * destruct (complete_records _ _ _); [| done].
        by destruct Hnil as [_ Hnil']; specialize (Hnil' eq_refl).
Qed.

Lemma user_bar_layout_witness :
  ∃ fig,
    user_bar "sex" "satjob" Sample.globals = (Ok fig, Sample.globals) ∧
    Px.barmode fig = "group" ∧
    Px.height fig = 400%Z ∧ Px.width fig = 630%Z ∧
    Px.xaxis_title fig = "" ∧
    Px.yaxis_title fig = "Frequency" ∧
    Px.yanchor (Px.legend fig) = Some "top" ∧
    Px.xanchor (Px.legend fig) = Some "right" ∧
    Px.legend_y (Px.legend fig) = Some (Q2Qc (95 # 100)) ∧
    Px.legend_x (Px.legend fig) = Some (Q2Qc (95 # 100)) ∧
    Px.coloraxis_title fig = None ∧
    Px.legend_title (Px.legend fig) = Some "Response".
Proof.
  apply (user_bar_layout Sample.gss Sample.globals "sex" "satjob");
    [vm_compute; reflexivity | offered | offered].
Defined.

(** ** Titles tell the selections apart *)

(** X15: two offered selections that get the same title are the same
    selection. *)
Theorem title_injective category question category' question' g g' :
  valid_category category →
  valid_question question →
  valid_category category' →
  valid_question question' →
  (title category question g).1 = (title category' question' g').1 →
  category = category' ∧ question = question'.
Proof.
  intros Hc Hq Hc' Hq'.
  destruct (valid_question_lookup _ Hq) as [qtext Hqt].
  destruct (valid_category_lookup _ Hc) as [clabel Hcl].
  destruct (valid_question_lookup _ Hq') as [qtext' Hqt'].
  destruct (valid_category_lookup _ Hc') as [clabel' Hcl'].
  rewrite (title_run _ _ _ _ g Hqt Hcl), (title_run _ _ _ _ g' Hqt' Hcl').
  simpl. intros [= Ht].
  unfold valid_question in Hq, Hq'. unfold valid_category in Hc, Hc'.
  simpl in Hc, Hq, Hc', Hq'.
  option_cases Hq; option_cases Hq';
    vm_compute in Hqt, Hqt'; injection Hqt as <-; injection Hqt' as <-;
    try (exfalso; vm_compute in Ht; discriminate Ht);
    (option_cases Hc; option_cases Hc';
     vm_compute in Hcl, Hcl'; injection Hcl as <-; injection Hcl' as <-;
     first [done | exfalso; vm_compute in Ht; discriminate Ht]).
Qed.

Lemma title_injective_witness :
  "sex" = "sex" ∧ "satjob" = "satjob".
Proof.
  apply (title_injective "sex" "satjob" "sex" "satjob" Sample.globals
           {| gss_clean := Sample.gss |}); [offered.. | reflexivity].
Defined.

(** ** Any two columns of any dataset *)

(** X16: for any dataset with distinct column labels and any two
    different columns of it, offered or not and neither called [count],
    [user_bar] returns a chart; the counts of its frequency table and the
    heights of its bars both add up to the number of records that have
    both values, and there is one bar per row of the table. *)
Theorem user_bar_any_columns g a b :
  NoDup (Frame.names (gss_clean g)) →
  a ∈ Frame.names (gss_clean g) →
  b ∈ Frame.names (gss_clean g) →
  a ≠ b → a ≠ "count" → b ≠ "count" →
  ∃ table fig,
    bars a b g = (Ok table, g) ∧
    user_bar a b g = (Ok fig, g) ∧
    count_total table = length (complete_records (gss_clean g) a b) ∧
    chart_total fig = length (complete_records (gss_clean g) a b) ∧
    Px.bar_count fig = length (records table).
Proof.
  intros _ Ha Hb Hab Hac Hbc.
  destruct (user_bar_chart g a b Ha Hb Hab)
    as (table & fig & Hbars & Hfig & Hdata & Htable).
  destruct (bars_total g a b Ha Hb Hab Hac Hbc) as (table' & Hbars' & Htotal & _).
  rewrite Hbars in Hbars'. injection Hbars' as <-.
  exists table, fig. repeat split; [done.. | |].
  - rewrite <- Htotal. unfold chart_total, count_total. rewrite Hdata.
    apply traces_weight. subst table. by apply table_colours_present.
  - unfold Px.bar_count. rewrite Hdata, bars_of_traces.
    rewrite traces_weight by (subst table; by apply table_colours_present).
    apply sum_list_with_const.
Qed.

Lemma user_bar_any_columns_witness :
  ∃ table fig,
    bars "age" "region" Sample.globals = (Ok table, Sample.globals) ∧
    user_bar "age" "region" Sample.globals = (Ok fig, Sample.globals) ∧
    count_total table = length (complete_records (gss_clean Sample.globals) "age" "region") ∧
    chart_total fig = length (complete_records (gss_clean Sample.globals) "age" "region") ∧
    Px.bar_count fig = length (records table).
Proof.
  apply (user_bar_any_columns Sample.globals "age" "region").
  - apply (bool_decide_unpack _). vm_compute. reflexivity.
  - apply (bool_decide_unpack _). vm_compute. reflexivity.
  - apply (bool_decide_unpack _). vm_compute. reflexivity.
  - discriminate.
  - discriminate.
  - discriminate.
Defined.

(** X17: when the category or the question is not a column of the
    dataset, line 315 and so [user_bar] raise [KeyError] with exactly the
    names that are not columns, the category first, and leave the globals
    as they were. *)
Theorem user_bar_missing_columns g a b :
  filter (λ n, n ∉ Frame.names (gss_clean g)) [a; b] ≠ [] →
  bars a b g =
    (Raise (KeyError (filter (λ n, n ∉ Frame.names (gss_clean g)) [a; b])), g) ∧
  user_bar a b g =
    (Raise (KeyError (filter (λ n, n ∉ Frame.names (gss_clean g)) [a; b])), g).
Proof.
  intros Hm.
  unfold user_bar, bars, read_gss_clean, lift, mbind, App_bind, mret, App_ret.
  by rewrite getitem_list_missing.
Qed.

Lemma user_bar_missing_columns_witness :
  bars "wtss" "educ" Sample.globals =
    (Raise (KeyError (filter (λ n, n ∉ Frame.names (gss_clean Sample.globals))
                        ["wtss"; "educ"])), Sample.globals) ∧
  user_bar "wtss" "educ" Sample.globals =
    (Raise (KeyError (filter (λ n, n ∉ Frame.names (gss_clean Sample.globals))
                        ["wtss"; "educ"])), Sample.globals).
Proof.
  apply (user_bar_missing_columns Sample.globals "wtss" "educ").
  vm_compute. discriminate.
Defined.

(** ** What the results depend on *)

Lemma getitem_list_columns df ns :
  Forall (λ n, n ∈ Frame.names df) ns →
  Frame.getitem_list df ns =
    Ok {| columns := (λ n, (n, Px.column_dtype df n)) <$> ns;
          records := (λ r, (λ n, Frame.field df n r) <$> ns) <$> records df |}.
Proof.
  intros Hall. destruct (getitem_list_present _ _ Hall) as [d Hd].
  destruct (getitem_list_Ok _ _ _ Hd) as [Hn Hr].
  rewrite Hd. f_equal. destruct d as [cols recs]. simpl in *. f_equal; [| done].
  unfold Frame.getitem_list in Hd.
  destruct (filter _ ns) eqn:Hf; [| done]. injection Hd as <- _.
  clear Hn Hr Hf. induction Hall as [| n ns Hin _ IH]; [done |].
  destruct (position_is_Some _ _ Hin) as [i Hi].
  pose proof (position_lookup _ _ _ Hi) as Hli.
  unfold Frame.names in Hli. rewrite list_lookup_fmap in Hli.
  destruct (columns df !! i) as [[n' t] |] eqn:Hci; [| done].
  injection Hli as ->.
  csimpl. rewrite Hi. csimpl. rewrite Hci. csimpl. rewrite IH. f_equal.
  unfold Px.column_dtype. rewrite Hi. simpl. by rewrite Hci.
Qed.

Lemma fmap_Forall2_ext {A B C} (f : A → C) (f' : B → C) l l' :
  Forall2 (λ x y, f x = f' y) l l' → f <$> l = f' <$> l'.
Proof. induction 1 as [| x y l l' Hxy _ IH]; csimpl; [done | by rewrite Hxy, IH]. Qed.

(** X18: the preparation reads nothing but the selected columns: two
    frames that have the same ones of them, with the same types and,
    record by record, the same values, give the same result, dataset or
    exception, whatever other columns they hold and in whatever order. *)
Theorem prepare_reads_selected_columns gss gss' :
  Forall (λ n, (n ∈ Frame.names gss ↔ n ∈ Frame.names gss')
               ∧ Px.column_dtype gss n = Px.column_dtype gss' n) mycols →
  Forall2 (λ r r', Forall (λ n, Frame.field gss n r = Frame.field gss' n r') mycols)
          (records gss) (records gss') →
  prepare gss = prepare gss'.
Proof.
  intros Hcols Hrecs.
  destruct (decide (Forall (λ n, n ∈ Frame.names gss) mycols)) as [Hall | Hnot].
  - assert (Forall (λ n, n ∈ Frame.names gss') mycols) as Hall'.
    { apply Forall_forall. intros n Hn.
      apply (proj1 (Forall_forall _ _) Hcols n Hn).
      by apply (proj1 (Forall_forall _ _) Hall). }
    rewrite (prepare_pass _ _ (getitem_list_columns _ _ Hall)).
    rewrite (prepare_pass _ _ (getitem_list_columns _ _ Hall')).
    assert (Frame.field gss "age" <$> records gss
            = Frame.field gss' "age" <$> records gss') as ->.
    { apply fmap_Forall2_ext. eapply Forall2_impl; [exact Hrecs |].
      intros r r' H. apply (proj1 (Forall_forall _ _) H).
      unfold mycols. repeat first [apply list_elem_of_here | apply list_elem_of_further]. }
    assert ((λ n, (n, Px.column_dtype gss n)) <$> mycols
            = (λ n, (n, Px.column_dtype gss' n)) <$> mycols) as ->.
    { apply Forall_fmap_ext_1. eapply Forall_impl; [exact Hcols |].
      intros n [_ Hd]. simpl. by rewrite Hd. }
    assert ((λ r, (λ n, Frame.field gss n r) <$> mycols) <$> records gss
            = (λ r, (λ n, Frame.field gss' n r) <$> mycols) <$> records gss') as ->.
    { apply fmap_Forall2_ext. eapply Forall2_impl; [exact Hrecs |].
      intros r r' H. by apply Forall_fmap_ext_1. }
    reflexivity.
  - assert (filter (λ n, n ∉ Frame.names gss) mycols
            = filter (λ n, n ∉ Frame.names gss') mycols) as Hm.
    { clear Hnot Hrecs. induction Hcols as [| n ns [Hn _] _ IH]; [done |].
      rewrite !filter_cons, IH.
      destruct (decide (n ∉ Frame.names gss)), (decide (n ∉ Frame.names gss'));
        tauto. }
    assert (missing_columns gss ≠ []) as Hne.
    { intros Hnil. apply Hnot, Forall_forall. intros n Hn.
      destruct (decide (n ∈ Frame.names gss)) as [| Hn']; [done |].
      assert (n ∈ missing_columns gss) as Hin by (by apply list_elem_of_filter).
      rewrite Hnil in Hin. by apply elem_of_nil in Hin. }
    unfold prepare. rewrite !getitem_list_missing; [by rewrite Hm | | done].
    by rewrite <- Hm.
Qed.

Lemma prepare_reads_selected_columns_witness :
  prepare Sample.gss = prepare gss_reordered.
Proof.
  apply (prepare_reads_selected_columns Sample.gss gss_reordered).
  - apply (bool_decide_unpack _). vm_compute. reflexivity.
  - apply (bool_decide_unpack _). vm_compute. reflexivity.
Defined.

Lemma complete_pairs_ext df df' a b :
  Forall2 (λ r r', Frame.field df a r = Frame.field df' a r'
                   ∧ Frame.field df b r = Frame.field df' b r')
          (records df) (records df') →
  complete_pairs df a b = complete_pairs df' a b.
Proof.
  unfold complete_pairs, complete_records.
  induction 1 as [| r r' l l' [Ha Hb] _ IH]; [done |].
  rewrite !filter_cons, <- Ha, <- Hb.
  case_decide; csimpl; by rewrite IH, <- ?Ha, <- ?Hb.
Qed.

(** X19: [user_bar] reads nothing but the two columns it is given: on
    two datasets in which these have the same types and, record by
    record, the same values, line 315 gives the same frequency table and
    [user_bar] the same chart. *)
Theorem user_bar_reads_two_columns g g' a b :
  a ∈ Frame.names (gss_clean g) →
  b ∈ Frame.names (gss_clean g) →
  a ∈ Frame.names (gss_clean g') →
  b ∈ Frame.names (gss_clean g') →
  a ≠ b →
  Px.column_dtype (gss_clean g) a = Px.column_dtype (gss_clean g') a →
  Px.column_dtype (gss_clean g) b = Px.column_dtype (gss_clean g') b →
  Forall2 (λ r r', Frame.field (gss_clean g) a r = Frame.field (gss_clean g') a r'
                   ∧ Frame.field (gss_clean g) b r = Frame.field (gss_clean g') b r')
          (records (gss_clean g)) (records (gss_clean g')) →
  (bars a b g).1 = (bars a b g').1 ∧
  (user_bar a b g).1 = (user_bar a b g').1.
Proof.
  intros Ha Hb Ha' Hb' Hab Hta Htb Hrecs.
  assert ((bars a b g).1 = (bars a b g').1) as Hbars.
  { rewrite (bars_table g a b), (bars_table g' a b) by done. simpl.
    by rewrite Hta, Htb, (complete_pairs_ext _ _ _ _ Hrecs). }
  split; [done |].
  unfold user_bar, mbind, App_bind.
  destruct (bars a b g) as [[table | e] g1], (bars a b g') as [[table' | e'] g1'];
    simpl in Hbars; try done.
  - injection Hbars as <-. unfold lift. by destruct (Px.bar _ _ _ _ _ _ _ _).
  - by injection Hbars as <-.
Qed.

Lemma user_bar_reads_two_columns_witness :
  (bars "sex" "satjob" Sample.globals).1
    = (bars "sex" "satjob" {| gss_clean := gss_reordered |}).1 ∧
  (user_bar "sex" "satjob" Sample.globals).1
    = (user_bar "sex" "satjob" {| gss_clean := gss_reordered |}).1.
Proof.
  apply (user_bar_reads_two_columns Sample.globals {| gss_clean := gss_reordered |}
           "sex" "satjob").
  - apply (bool_decide_unpack _). vm_compute. reflexivity.
  - apply (bool_decide_unpack _). vm_compute. reflexivity.
  - apply (bool_decide_unpack _). vm_compute. reflexivity.
  - apply (bool_decide_unpack _). vm_compute. reflexivity.
  - discriminate.
  - vm_compute. reflexivity.
  - vm_compute. reflexivity.
  - apply (bool_decide_unpack _). vm_compute. reflexivity.
Defined.
